(** * Plover's dictionary engine: stroke normalisation, the similarity index,
  a single steno dictionary and the dictionary collection.

  The first part embeds the Python code (one module per Python class or
  file, with the names of the source); the second part holds the
  specification-side definitions (runs of operations, invariants); the
  third part states and proves the properties. *)

From stdpp Require Import gmap strings list sorting.
From Stdlib Require Import Ascii.
From Stdlib Require OrderedTypeEx.

(** ** Part I: the program *)

(** *** What the code uses of Python itself *)
Module Py.

(** A [str] is a sequence of characters. *)
Abbreviation str := (list ascii).

(** The characters of a string literal. *)
Definition chars (s : string) : str := String.list_ascii_of_string s.

(** The exception classes the modelled code raises or mentions. *)
Inductive exception : Set :=
| AssertionError
| KeyError
| IndexError
| NotImplementedError.

(** A method call on an object of state [St] either returns a value or
    raises; both ways the object is left in some state, which is kept so
    that what a failed call did to the object can be stated. *)
Inductive outcome (St A : Type) : Type :=
| Normal (r : A) (self : St)
| Raised (e : exception) (self : St).
Arguments Normal {St A} r self.
Arguments Raised {St A} e self.

Definition state_of {St A} (o : outcome St A) : St :=
  match o with
  | Normal _ s => s
  | Raised _ s => s
  end.

Definition raises {St A} (o : outcome St A) : bool :=
  match o with
  | Normal _ _ => false
  | Raised _ _ => true
  end.

(** [a < b] of Python on the values of a type ([__lt__]). *)
Class Lt (A : Type) := lt : A → A → bool.

(** A 2-tuple against a 2-tuple: the first position where the two differ
    (by [==]) decides, by [<]. *)
Definition tuple2_lt {A B} `{EqDecision A, EqDecision B, Lt A, Lt B}
    (x y : A * B) : bool :=
  if decide (x.1 = y.1) then
    if decide (x.2 = y.2) then false else lt x.2 y.2
  else lt x.1 y.1.

(** A 2-tuple [x] against the 1-tuple [(a,)]: with equal first components
    the shorter tuple is the smaller one, so [x < (a,)] is false. *)
Definition tuple2_lt_tuple1 {A B} `{EqDecision A, Lt A}
    (x : A * B) (a : A) : bool :=
  if decide (x.1 = a) then false else lt x.1 a.

(** [sorted] and [list.sort]: a stable sort that compares with [<] only.
    Each element goes in front of the first one it is smaller than, so
    that elements that do not compare smaller keep their order. *)
Fixpoint insort {A} (ltb : A → A → bool) (x : A) (l : list A) : list A :=
  match l with
  | [] => [x]
  | y :: l' => if ltb x y then x :: y :: l' else y :: insort ltb x l'
  end.

Definition sorted {A} (ltb : A → A → bool) (l : list A) : list A :=
  foldl (λ acc x, insort ltb x acc) [] l.

(** [bisect.bisect_left(a, x)]: the loop
    [while lo < hi: mid = (lo+hi)//2; if a[mid] < x: lo = mid+1 else: hi = mid].
    [lt_x e] is [e < x]. The loop halves [hi - lo], so [length a] rounds
    are more than it can make; [fuel] counts them. *)
Fixpoint bisect_loop {A} (lt_x : A → bool) (a : list A)
    (fuel lo hi : nat) : nat :=
  match fuel with
  | O => lo
  | S fuel' =>
      if decide (lo < hi)%nat then
        let mid := ((lo + hi) / 2)%nat in
        match a !! mid with
        | Some e =>
            if lt_x e then bisect_loop lt_x a fuel' (mid + 1)%nat hi
            else bisect_loop lt_x a fuel' lo mid
        | None => lo
        end
      else lo
  end.

Definition bisect_left {A} (lt_x : A → bool) (a : list A) : nat :=
  bisect_loop lt_x a (S (length a)) 0 (length a).

(** [<] on [int]. *)
#[export] Instance Z_Lt : Lt Z := Z.ltb.

(** What a call that has no object to leave behind comes to: a value, or
    an exception raised. *)
Inductive result (A : Type) : Type :=
| Value (a : A)
| Exception (e : exception).
Arguments Value {A} a.
Arguments Exception {A} e.

(** [s.lstrip(c)] and [s.strip(c)] for one character [c]. *)
Fixpoint lstrip (c : ascii) (s : str) : str :=
  match s with
  | a :: s' => if decide (a = c) then lstrip c s' else s
  | [] => []
  end.

Definition strip (c : ascii) (s : str) : str :=
  reverse (lstrip c (reverse (lstrip c s))).

(** The order in which a set is iterated: some order of its elements,
    which the interpreter chooses. *)
Class SetIter (A : Type) `{Countable A} := set_iter : gset A → list A.

(** [s.split(sep)] for a separator of one character: the pieces between
    the separators, one more than there are separators. *)
Fixpoint split (sep : ascii) (s : str) : list str :=
  match s with
  | [] => [[]]
  | c :: s' =>
      if decide (c = sep) then [] :: split sep s'
      else match split sep s' with
           | piece :: pieces => (c :: piece) :: pieces
           | [] => [[c]]
           end
  end.

(** [sep.join(pieces)] *)
Fixpoint join (sep : str) (pieces : list str) : str :=
  match pieces with
  | [] => []
  | [piece] => piece
  | piece :: pieces' => piece ++ sep ++ join sep pieces'
  end.

(** [dict(pairs).items()], which is also the order in which a dict that
    was empty before [update(pairs)] iterates: each key once, at the place
    of its first occurrence and with the value of its last. *)
Fixpoint dict_setitem {K V} `{EqDecision K} (k : K) (v : V)
    (l : list (K * V)) : list (K * V) :=
  match l with
  | [] => [(k, v)]
  | (k', v') :: l' =>
      if decide (k = k') then (k, v) :: l'
      else (k', v') :: dict_setitem k v l'
  end.

Definition dict_items {K V} `{EqDecision K} (pairs : list (K * V))
    : list (K * V) :=
  foldl (λ acc kv, dict_setitem kv.1 kv.2 acc) [] pairs.

End Py.

(** *** plover/steno.py *)
Module steno.
Import Py.

(** [plover.system], the keyboard layout, is not among the sources: what
    [normalize_stroke] reads of it is a parameter. *)
Class System := {
  NUMBER_KEY : str;
  IMPLICIT_HYPHENS : list str
}.

(** The values of Plover's English stenotype layout, to run examples. *)
Definition english_stenotype : System := {|
  NUMBER_KEY := chars "#";
  IMPLICIT_HYPHENS :=
    chars <$> ["A"; "O"; "5"; "0"; "E"; "U"; "*"]%string
|}.

Definition STROKE_DELIMITER : ascii := "/".

Definition _NUMBERS : list ascii := chars "0123456789".

(** [x in letters] for [letters = set(stroke)]: the members of [letters]
    are the one-character strings of [stroke]. *)
Definition in_letters (letters : str) (x : str) : bool :=
  match x with
  | [c] => bool_decide (c ∈ letters)
  | _ => false
  end.

(** [letters & _NUMBERS], as a truth value. *)
Definition has_number (letters : str) : bool :=
  existsb (λ c, bool_decide (c ∈ _NUMBERS)) letters.

(** [letters & system.IMPLICIT_HYPHENS], as a truth value. *)
Definition has_implicit_hyphen `{System} (letters : str) : bool :=
  existsb (in_letters letters) IMPLICIT_HYPHENS.

(** [stroke.replace(x, '')] where [x] is one character (the only use the
    code makes of it: [x] is ['-'], or a key just found in [letters]). *)
Definition replace_by_empty (x : str) (stroke : str) : str :=
  match x with
  | [c] => filter (λ a, a ≠ c) stroke
  | _ => stroke
  end.

Definition rx_1_4 (c : ascii) : bool :=
  bool_decide (c ∈ chars "1234").
Definition rx_6_9 (c : ascii) : bool :=
  bool_decide (c ∈ chars "6789").

(** [_IMPLICIT_NUMBER_RX = re.compile('(^|[1-4])([6-9])')] and its
    [search(stroke)], giving [m.start(2)] of the leftmost match. After
    position 0 only the alternative [[1-4]] can start a match. *)
Fixpoint _IMPLICIT_NUMBER_RX_pair (pos : nat) (s : str) : option nat :=
  match s with
  | a :: ((b :: _) as tl) =>
      if rx_1_4 a && rx_6_9 b then Some (S pos)
      else _IMPLICIT_NUMBER_RX_pair (S pos) tl
  | _ => None
  end.

Definition _IMPLICIT_NUMBER_RX_search (s : str) : option nat :=
  match s with
  | a :: _ => if rx_6_9 a then Some 0%nat else _IMPLICIT_NUMBER_RX_pair 0 s
  | [] => None
  end.

Definition endswith_hyphen (stroke : str) : bool :=
  bool_decide (last stroke = Some "-"%char).

Definition normalize_stroke `{System} (stroke : str) : str :=
  let letters := stroke in
  let '(stroke, m) :=
    if has_number letters then
      let stroke :=
        if in_letters letters NUMBER_KEY
        then replace_by_empty NUMBER_KEY stroke
        else stroke in
      (stroke, _IMPLICIT_NUMBER_RX_search stroke)
    else (stroke, None) in
  match m with
  | Some start => take start stroke ++ "-"%char :: drop start stroke
  | None =>
      if bool_decide ("-"%char ∈ letters) then
        if endswith_hyphen stroke then removelast stroke
        else if has_implicit_hyphen letters
             then replace_by_empty ["-"%char] stroke
             else stroke
      else stroke
  end.

(** The tuple of [normalize_steno], as a list. *)
Definition normalize_steno `{System} (strokes_string : str) : list str :=
  normalize_stroke <$> split STROKE_DELIMITER strokes_string.

(** The sort key of [sort_steno_strokes]:
    [(sum(c == "/" for c in x), len(x))]. *)
Definition strokes_and_keys (x : str) : Z * Z :=
  (Z.of_nat (length (filter (λ c, c = "/"%char) x)), Z.of_nat (length x)).

Definition sort_steno_strokes (strokes_list : list str) : list str :=
  sorted (λ a b, tuple2_lt (strokes_and_keys a) (strokes_and_keys b))
         strokes_list.

(** What [Stroke] and [sort_steno_keys] read of [plover.system] besides:
    parameters too. *)
Class Layout := {
  KEY_ORDER : gmap str Z;
  NUMBERS : gmap str str;
  IMPLICIT_HYPHEN_KEYS : gset str;
  UNDO_STROKE_STENO : str
}.

Section Stroke.
Context `{System} `{Layout} `{!SetIter str}.

(** [sorted(steno_keys, key=system.KEY_ORDER.__getitem__)]: the sort keys
    are looked up first, which raises [KeyError] at a key without one. *)
Definition sort_steno_keys (steno_keys : list str) : result (list str) :=
  if forallb (λ k, bool_decide (is_Some (KEY_ORDER !! k))) steno_keys then
    Value (sorted (λ a b, lt (default 0%Z (KEY_ORDER !! a))
                             (default 0%Z (KEY_ORDER !! b))) steno_keys)
  else Exception KeyError.

(** class Stroke(set): the set itself and its three attributes. *)
Record Stroke := mk_Stroke {
  keys : gset str;
  steno_keys : list str;
  rtfcre : str;
  is_correction : bool
}.

(** [for k in numerals: self.remove(k); self.add(system.NUMBERS[k])];
    [set.remove] raises [KeyError] when the key is not in the set. *)
Fixpoint numerals_loop (self : gset str) (numerals : list str)
    : result (gset str) :=
  match numerals with
  | [] => Value self
  | k :: numerals' =>
      if decide (k ∈ self) then
        match NUMBERS !! k with
        | Some n => numerals_loop ({[n]} ∪ self ∖ {[k]}) numerals'
        | None => Exception KeyError
        end
      else Exception KeyError
  end.

(** "Convert strokes involving the number bar to numbers." *)
Definition convert_numbers (self : gset str) : result (gset str) :=
  if decide (NUMBER_KEY ∈ self) then
    let numerals := filter (λ k, is_Some (NUMBERS !! k)) self in
    if decide (numerals ≠ ∅) then
      numerals_loop (self ∖ {[NUMBER_KEY]}) (set_iter numerals)
    else Value self
  else Value self.

(** "Build an RTFCRE string": [k[-1]] and [k[0]] raise [IndexError] on an
    empty key. *)
Definition build_rtfcre (self : gset str) (steno_keys : list str)
    : result str :=
  if decide (self ∩ IMPLICIT_HYPHEN_KEYS ≠ ∅) then
    Value (concat (strip "-" <$> steno_keys))
  else if bool_decide (Exists (λ k, k = []) steno_keys) then
    Exception IndexError
  else
    let pre :=
      concat (strip "-" <$>
              filter (λ k, last k = Some "-"%char ∨ k = NUMBER_KEY)
                     steno_keys) in
    let post :=
      concat (strip "-" <$>
              filter (λ k, head k = Some "-"%char) steno_keys) in
    Value (if decide (post ≠ []) then join ["-"%char] [pre; post] else pre).

Definition Stroke__init__ (steno_keys : list str) : result Stroke :=
  match convert_numbers (list_to_set steno_keys) with
  | Value self =>
      match sort_steno_keys (set_iter self) with
      | Value sorted_keys =>
          match build_rtfcre self sorted_keys with
          | Value text =>
              Value {| keys := self; steno_keys := sorted_keys;
                       rtfcre := text;
                       is_correction :=
                         bool_decide (text = UNDO_STROKE_STENO) |}
          | Exception e => Exception e
          end
      | Exception e => Exception e
      end
  | Exception e => Exception e
  end.

End Stroke.

End steno.

(** *** plover/dictionary/base.py: class SimilarSearchDict(dict) *)
Module SimilarSearchDict.
Import Py.

Section SimilarSearchDict.
Context {K S V : Type} `{Countable K} `{EqDecision S} `{Lt K} `{Lt S}.

(** The object: the [dict] it extends and its three attributes. *)
Record t := mk {
  dict : gmap K V;
  _list : list (S * K);
  _needs_sorting : bool;
  _simfn : K → S
}.

(** [__init__(simfn)] without initial items. A missing [simfn] stands for
    the identity, which is [__init__ id] at [S = K]. *)
Definition __init__ (simfn : K → S) : t :=
  {| dict := ∅; _list := []; _needs_sorting := false; _simfn := simfn |}.

Definition clear (self : t) : t :=
  {| dict := ∅; _list := [];
     _needs_sorting := _needs_sorting self; _simfn := _simfn self |}.

Definition __setitem__ (self : t) (k : K) (v : V) : outcome t unit :=
  let self :=
    match dict self !! k with
    | None =>
        {| dict := dict self;
           _list := _list self ++ [(_simfn self k, k)];
           _needs_sorting := true; _simfn := _simfn self |}
    | Some _ => self
    end in
  Normal tt
    {| dict := <[k := v]> (dict self); _list := _list self;
       _needs_sorting := _needs_sorting self; _simfn := _simfn self |}.

Definition sort (self : t) : t :=
  {| dict := dict self; _list := sorted tuple2_lt (_list self);
     _needs_sorting := false; _simfn := _simfn self |}.

(** [del self._list[idx]] raises [IndexError] when [idx] is not an index of
    the list. *)
Definition __delitem__ (self : t) (k : K) : outcome t unit :=
  match dict self !! k with
  | Some _ =>
      let self :=
        {| dict := delete k (dict self); _list := _list self;
           _needs_sorting := _needs_sorting self; _simfn := _simfn self |} in
      let self := if _needs_sorting self then sort self else self in
      let idx :=
        bisect_left (λ e, tuple2_lt e (_simfn self k, k)) (_list self) in
      if decide (idx < length (_list self))%nat then
        Normal tt
          {| dict := dict self; _list := delete idx (_list self);
             _needs_sorting := _needs_sorting self; _simfn := _simfn self |}
      else Raised IndexError self
  | None => Normal tt self
  end.

Definition _index_left (self : t) (k : K) : nat * t :=
  let self := if _needs_sorting self then sort self else self in
  (bisect_left (λ e, tuple2_lt_tuple1 e (_simfn self k)) (_list self), self).

(** The loop of [filter_keys], on what of [_list] lies at [idx] and after:
    [keys] are the keys gathered so far. *)
Fixpoint filter_keys_loop (filterfn : option (S → S → bool)) (simkey : S)
    (count : option Z) (rest : list (S * K)) (keys : list K) : list K :=
  match rest with
  | [] => keys
  | (sk, rk) :: rest' =>
      if match filterfn with
         | Some f => negb (f sk simkey)
         | None => false
         end
      then keys
      else
        let keys := keys ++ [rk] in
        if match count with
           | Some c => bool_decide (c ≤ Z.of_nat (length keys))%Z
           | None => false
           end
        then keys
        else filter_keys_loop filterfn simkey count rest' keys
  end.

(** [_list] is bound before [_index_left] may sort: the sort is in place,
    so that the loop reads the sorted list. *)
Definition filter_keys (self : t) (k : K) (count : option Z)
    (filterfn : option (S → S → bool)) : outcome t (list K) :=
  let simkey := _simfn self k in
  let '(idx, self) := _index_left self k in
  Normal (filter_keys_loop filterfn simkey count (drop idx (_list self)) [])
         self.

(** [operator.eq] *)
Definition operator_eq (a b : S) : bool := bool_decide (a = b).

Definition get_similar_keys (self : t) (k : K) (count : option Z)
    : outcome t (list K) :=
  filter_keys self k count (Some operator_eq).

(** The three stubs return the exception class, they do not raise it. *)
Definition setdefault (self : t) (k : K) (default : option V)
    : outcome t exception :=
  Normal NotImplementedError self.
Definition pop (self : t) (k : K) : outcome t exception :=
  Normal NotImplementedError self.
Definition popitem (self : t) : outcome t exception :=
  Normal NotImplementedError self.

(** [for (k, v) in items: self[k] = v] *)
Fixpoint update_loop (self : t) (items : list (K * V)) : outcome t unit :=
  match items with
  | [] => Normal tt self
  | (k, v) :: items' =>
      match __setitem__ self k v with
      | Normal _ self => update_loop self items'
      | Raised e self => Raised e self
      end
  end.

(** [update] with one sequence of [(key, value)] pairs as its argument. On
    the fast path the dict was empty, so that it then iterates as
    [dict(pairs)] does, which gives the order of the new [_list]. *)
Definition update (self : t) (pairs : list (K * V)) : outcome t unit :=
  let filled :=
    if decide (dict self = ∅) then
      Normal tt
        {| dict := foldl (λ (d : gmap K V) kv, <[kv.1 := kv.2]> d)
                     (dict self) pairs;
           _list := (λ kv, (_simfn self kv.1, kv.1)) <$> dict_items pairs;
           _needs_sorting := _needs_sorting self; _simfn := _simfn self |}
    else update_loop self (dict_items pairs) in
  match filled with
  | Normal _ self => Normal tt (sort self)
  | Raised e self => Raised e self
  end.

End SimilarSearchDict.

Arguments t K S V {_ _}.

End SimilarSearchDict.

(** *** plover/dictionary/base.py: class ReverseStenoDict

    steno_dictionary.py imports this class from plover/dictionary/base.py,
    but the file at hand does not define it. *)
Module ReverseStenoDict.

Section ReverseStenoDict.
Context {K V : Type} `{Countable K} `{Countable V}.

(** Modelled from the spec: the class [ReverseStenoDict] is missing; the
    spec has the reverse index be a mapping "translation → set of
    stroke-sequence keys that produce it". *)
Record t := mk { index : gmap V (gset K) }.

(** Modelled from the spec: the constructor [ReverseStenoDict()] is missing;
    a dictionary is "created empty". *)
Definition __init__ : t := {| index := ∅ |}.

(** Modelled from the spec: [clear] of the missing class, which empties the
    index as [dict.clear] does. *)
Definition clear (self : t) : t := {| index := ∅ |}.

(** Modelled from the spec: [value in self.reverse] and
    [self.reverse[value]] on the missing class, read as one lookup. *)
Definition get (self : t) (value : V) : option (gset K) :=
  index self !! value.

(** Modelled from the spec: [append_key] is missing; on a set "the reverse
    index is updated with the new value": [key] joins the keys that
    produce [value]. *)
Definition append_key (self : t) (value : V) (key : K) : t :=
  {| index := <[value := {[key]} ∪ default ∅ (index self !! value)]>
                (index self) |}.

(** Modelled from the spec: [remove_key] is missing; it "removes
    [(value, key)] from the reverse index", and since "no stale entries
    survive", a translation that no key produces any more leaves the index
    with its last key. *)
Definition remove_key (self : t) (value : V) (key : K) : t :=
  match index self !! value with
  | Some keys =>
      let keys := keys ∖ {[key]} in
      {| index := if decide (keys = ∅) then delete value (index self)
                  else <[value := keys]> (index self) |}
  | None => self
  end.

(** Modelled from the spec: [match_forward] is missing; the fast path of
    [bulk_update] "rebuilds the reverse index wholesale" from the forward
    mapping. *)
Definition match_forward (self : t) (forward : gmap K V) : t :=
  map_fold (λ key value rev, append_key rev value key) __init__ forward.

End ReverseStenoDict.

Arguments t K V {_ _ _ _}.

(** The three search methods of the missing class, which the dictionary
    passes through. What they return is left open: a parameter. *)
Class Search (K V : Type) `{Countable K} `{Countable V} := {
  get_similar_keys : t K V → V → list V;
  partial_match_keys : t K V → V → option Z → list V;
  regex_match_keys : t K V → V → option Z → list V
}.

End ReverseStenoDict.

(** *** plover/steno_dictionary.py: class StenoDictionary(dict) *)
Module StenoDictionary.
Import Py.

Section StenoDictionary.
Context {K V : Type} `{Countable K} `{Countable V}.

(** The object: the [dict] it extends, and the attributes that the modelled
    methods read or write ([filters], [timestamp] and [path] are left out:
    none does). *)
Record t := mk {
  dict : gmap K V;
  reverse : ReverseStenoDict.t K V;
  readonly : bool;
  enabled : bool
}.

Definition __init__ : t :=
  {| dict := ∅; reverse := ReverseStenoDict.__init__;
     readonly := false; enabled := true |}.

(** [d.readonly = b] and [d.enabled = b], as [load] and the callers do. *)
Definition set_readonly (b : bool) (self : t) : t :=
  {| dict := dict self; reverse := reverse self;
     readonly := b; enabled := enabled self |}.
Definition set_enabled (b : bool) (self : t) : t :=
  {| dict := dict self; reverse := reverse self;
     readonly := readonly self; enabled := b |}.

Definition clear (self : t) : outcome t unit :=
  Normal tt
    {| dict := ∅; reverse := ReverseStenoDict.clear (reverse self);
       readonly := readonly self; enabled := enabled self |}.

Definition __setitem__ (self : t) (key : K) (value : V) : outcome t unit :=
  if readonly self then Raised AssertionError self
  else
    let rev :=
      match dict self !! key with
      | Some old => ReverseStenoDict.remove_key (reverse self) old key
      | None => reverse self
      end in
    Normal tt
      {| dict := <[key := value]> (dict self);
         reverse := ReverseStenoDict.append_key rev value key;
         readonly := readonly self; enabled := enabled self |}.

(** [super().pop(key)] is [dict.pop]: it raises [KeyError] on a key that is
    not there. *)
Definition __delitem__ (self : t) (key : K) : outcome t unit :=
  if readonly self then Raised AssertionError self
  else
    match dict self !! key with
    | Some value =>
        Normal tt
          {| dict := delete key (dict self);
             reverse := ReverseStenoDict.remove_key (reverse self) value key;
             readonly := readonly self; enabled := enabled self |}
    | None => Raised KeyError self
    end.

(** [dict(pairs).items()]: each key once, at the place of its first
    occurrence and with the value of its last. *)
Fixpoint assoc_set (k : K) (v : V) (l : list (K * V)) : list (K * V) :=
  match l with
  | [] => [(k, v)]
  | (k', v') :: l' =>
      if decide (k = k') then (k, v) :: l' else (k', v') :: assoc_set k v l'
  end.

Definition dict_items (pairs : list (K * V)) : list (K * V) :=
  foldl (λ acc kv, assoc_set kv.1 kv.2 acc) [] pairs.

(** [for (k, v) in items: self[k] = v] *)
Fixpoint update_loop (self : t) (items : list (K * V)) : outcome t unit :=
  match items with
  | [] => Normal tt self
  | (k, v) :: items' =>
      match __setitem__ self k v with
      | Normal _ self => update_loop self items'
      | Raised e self => Raised e self
      end
  end.

(** [update] with one sequence of [(key, value)] pairs as its argument. *)
Definition update (self : t) (pairs : list (K * V)) : outcome t unit :=
  if readonly self then Raised AssertionError self
  else if decide (dict self = ∅) then
    let d := foldl (λ (d : gmap K V) kv, <[kv.1 := kv.2]> d) (dict self) pairs in
    Normal tt
      {| dict := d;
         reverse := ReverseStenoDict.match_forward (reverse self) d;
         readonly := readonly self; enabled := enabled self |}
  else update_loop self (dict_items pairs).

(** [self.reverse[value] if value in self.reverse else []] *)
Definition reverse_lookup (self : t) (value : V) : gset K :=
  match ReverseStenoDict.get (reverse self) value with
  | Some keys => keys
  | None => ∅
  end.

(** The pass-throughs that [__init__] binds to the reverse dictionary. *)
Definition similar_reverse_lookup `{!ReverseStenoDict.Search K V}
    (self : t) (value : V) : list V :=
  ReverseStenoDict.get_similar_keys (reverse self) value.
Definition partial_reverse_lookup `{!ReverseStenoDict.Search K V}
    (self : t) (pattern : V) (count : option Z) : list V :=
  ReverseStenoDict.partial_match_keys (reverse self) pattern count.
Definition regex_reverse_lookup `{!ReverseStenoDict.Search K V}
    (self : t) (pattern : V) (count : option Z) : list V :=
  ReverseStenoDict.regex_match_keys (reverse self) pattern count.

(** The three stubs return the exception class, they do not raise it. *)
Definition setdefault (self : t) (k : K) (default : option V)
    : outcome t exception :=
  Normal NotImplementedError self.
Definition pop (self : t) (k : K) : outcome t exception :=
  Normal NotImplementedError self.
Definition popitem (self : t) : outcome t exception :=
  Normal NotImplementedError self.

End StenoDictionary.

Arguments t K V {_ _ _ _}.

End StenoDictionary.

(** *** plover/steno_dictionary.py: class StenoDictionaryCollection *)
Module StenoDictionaryCollection.
Import Py.

(** [str.lower], by which [_multi_reverse_lookup] sorts. *)
Class Lower (V : Type) := str_lower : V → V.

(** [a is b] on translations: whether two equal strings are one object is
    up to the interpreter and to where the strings come from. *)
Class Is (V : Type) := py_is : V → V → bool.

Section StenoDictionaryCollection.
Context {K V : Type} `{Countable K} `{Countable V}.
Context `{Lt V} `{Lower V} `{Is V} `{!ReverseStenoDict.Search K V}.

Record t := mk {
  dicts : list (StenoDictionary.t K V);
  filters : list (K → V → bool)
}.

Definition __init__ (dicts : list (StenoDictionary.t K V)) : t :=
  {| dicts := dicts; filters := [] |}.

Definition set_dicts (self : t) (dicts : list (StenoDictionary.t K V)) : t :=
  {| dicts := dicts; filters := filters self |}.

Definition add_filter (self : t) (f : K → V → bool) : t :=
  {| dicts := dicts self; filters := filters self ++ [f] |}.

(** [for d in self.dicts: ...], with [None] for "not found". *)
Fixpoint lookup_loop (filters : list (K → V → bool)) (key : K)
    (ds : list (StenoDictionary.t K V)) : option V :=
  match ds with
  | [] => None
  | d :: ds' =>
      match (if StenoDictionary.enabled d
             then StenoDictionary.dict d !! key else None) with
      | Some value =>
          if existsb (λ f, f key value) filters then None else Some value
      | None => lookup_loop filters key ds'
      end
  end.

Definition lookup (self : t) (key : K) : option V :=
  lookup_loop (filters self) key (dicts self).

(** The loop of [raw_lookup], which has no filters to ask. *)
Fixpoint raw_lookup_loop (key : K) (ds : list (StenoDictionary.t K V))
    : option V :=
  match ds with
  | [] => None
  | d :: ds' =>
      match (if StenoDictionary.enabled d
             then StenoDictionary.dict d !! key else None) with
      | Some value => Some value
      | None => raw_lookup_loop key ds'
      end
  end.

Definition raw_lookup (self : t) (key : K) : option V :=
  raw_lookup_loop key (dicts self).

(** The loop of [first_writable]: the member found and its place in
    [dicts]. *)
Fixpoint first_writable_loop (i : nat) (ds : list (StenoDictionary.t K V))
    : option (nat * StenoDictionary.t K V) :=
  match ds with
  | [] => None
  | d :: ds' =>
      if negb (StenoDictionary.readonly d) then Some (i, d)
      else first_writable_loop (S i) ds'
  end.

Definition first_writable (self : t) : outcome t (StenoDictionary.t K V) :=
  match first_writable_loop 0 (dicts self) with
  | Some (_, d) => Normal d self
  | None => Raised KeyError self
  end.

(** [set(key, value)] without a path: [d[key] = value] on the member that
    [first_writable] returns. The member is changed where it stands in
    [dicts] (the members are taken to be distinct objects). *)
Definition set (self : t) (key : K) (value : V) : outcome t unit :=
  match first_writable_loop 0 (dicts self) with
  | Some (i, d) =>
      match StenoDictionary.__setitem__ d key value with
      | Normal _ d' =>
          Normal tt {| dicts := <[i := d']> (dicts self);
                       filters := filters self |}
      | Raised e d' =>
          Raised e {| dicts := <[i := d']> (dicts self);
                      filters := filters self |}
      end
  | None => Raised KeyError self
  end.

(** One round of the loop of [reverse_lookup]. *)
Definition reverse_lookup_step (value : V) (keys : gset K)
    (d : StenoDictionary.t K V) : gset K :=
  if StenoDictionary.enabled d then
    let keys :=
      if decide (keys ≠ ∅) then
        let overrides :=
          filter (λ k, is_Some (StenoDictionary.dict d !! k)) keys in
        keys ∖ overrides
      else keys in
    keys ∪ StenoDictionary.reverse_lookup d value
  else keys.

Definition reverse_lookup (self : t) (value : V) : gset K :=
  foldl (reverse_lookup_step value) ∅ (reverse (dicts self)).

(** [len(results) >= max_count], when a count is given. *)
Definition count_reached (max_count : option Z) (n : nat) : bool :=
  match max_count with
  | Some c => bool_decide (c ≤ Z.of_nat n)%Z
  | None => false
  end.

(** The loop of [_multi_reverse_lookup] over the sorted values. *)
Fixpoint _multi_reverse_lookup_loop (self : t) (max_count : option Z)
    (values : list V) (old_v : option V) (results : list (V * gset K))
    : list (V * gset K) :=
  match values with
  | [] => results
  | v :: values' =>
      if match old_v with
         | Some o => negb (py_is v o)
         | None => true
         end
      then
        let old_v := Some v in
        let keys := reverse_lookup self v in
        if decide (keys ≠ ∅) then
          let results := results ++ [(v, keys)] in
          if count_reached max_count (length results) then results
          else _multi_reverse_lookup_loop self max_count values' old_v results
        else _multi_reverse_lookup_loop self max_count values' old_v results
      else _multi_reverse_lookup_loop self max_count values' old_v results
  end.

Definition _multi_reverse_lookup (self : t) (values : list V)
    (max_count : option Z) : list (V * gset K) :=
  _multi_reverse_lookup_loop self max_count
    (sorted (λ a b, lt (str_lower a) (str_lower b)) values) None [].

(** [[t for d in self.dicts if d.enabled for t in f(d)]] *)
Definition translations (self : t) (f : StenoDictionary.t K V → list V)
    : list V :=
  concat (f <$> filter (λ d, StenoDictionary.enabled d = true) (dicts self)).

Definition find_similar (self : t) (value : V) : list (V * gset K) :=
  _multi_reverse_lookup self
    (translations self (λ d, StenoDictionary.similar_reverse_lookup d value))
    None.

Definition find_partial (self : t) (pattern : V) (count : option Z)
    : list (V * gset K) :=
  _multi_reverse_lookup self
    (translations self
       (λ d, StenoDictionary.partial_reverse_lookup d pattern count))
    count.

Definition find_regex (self : t) (pattern : V) (count : option Z)
    : list (V * gset K) :=
  _multi_reverse_lookup self
    (translations self
       (λ d, StenoDictionary.regex_reverse_lookup d pattern count))
    count.

End StenoDictionaryCollection.

Arguments t K V {_ _ _ _}.

End StenoDictionaryCollection.

(** ** Part II: specification-side definitions *)

Module Py_spec.
Import Py.

(** What the class asks of its keys, "totally orderable": [<] is a strict
    total order, and [==] is equality. *)
Class TotalLt (A : Type) `{Lt A} : Prop := {
  lt_irrefl : ∀ a : A, lt a a = false;
  lt_trans : ∀ a b c : A, lt a b = true → lt b c = true → lt a c = true;
  lt_total : ∀ a b : A, a ≠ b → lt a b = true ∨ lt b a = true
}.

(** The order that a comparison function decides. *)
Definition lt_rel {A} (ltb : A → A → bool) (x y : A) : Prop := ltb x y = true.

(** [a] splits in two at [n]: [p] holds before [n] and nowhere after. *)
Definition split_at {A} (p : A → bool) (a : list A) (n : nat) : Prop :=
  Forall (λ e, p e = true) (take n a) ∧ Forall (λ e, p e = false) (drop n a).

(** [d.update(pairs)] on a plain dict: the pairs go in one after the
    other, so that of two pairs with one key the later one stays. *)
Definition updated {K V} `{Countable K} (d : gmap K V) (pairs : list (K * V))
    : gmap K V :=
  foldl (λ (d : gmap K V) kv, <[kv.1 := kv.2]> d) d pairs.

(** "Not greater", for the order that a comparison function decides. *)
Definition le_rel {A} (ltb : A → A → bool) (x y : A) : Prop :=
  ltb y x = false.

End Py_spec.

Module SimilarSearchDict_spec.
Import Py SimilarSearchDict.

Section spec.
Context {K S V : Type} `{Countable K} `{EqDecision S} `{Lt K} `{Lt S}.

(** The two operations that build a dictionary, and their runs from the
    empty dictionary. An operation that raises leaves the object as it was
    when it raised, and the run goes on from there. *)
Inductive op : Type :=
| SetItem (k : K) (v : V)
| DelItem (k : K).

Definition apply (self : t K S V) (o : op) : outcome (t K S V) unit :=
  match o with
  | SetItem k v => __setitem__ self k v
  | DelItem k => __delitem__ self k
  end.

Definition run_from (self : t K S V) (ops : list op) : t K S V :=
  foldl (λ d o, state_of (apply d o)) self ops.

Definition run (simfn : K → S) (ops : list op) : t K S V :=
  run_from (__init__ simfn) ops.

(** The order of the pairs of [_list]. *)
Definition pair_lt (x y : S * K) : Prop := tuple2_lt x y = true.

(** What holds of the object between two operations: [_list] has one pair
    [(simfn k, k)] for each key [k] of the dict and nothing else, and it is
    sorted unless the flag says it may not be. *)
Record wf (self : t K S V) : Prop := {
  wf_NoDup : NoDup (_list self);
  wf_entries : ∀ sk rk,
    (sk, rk) ∈ _list self ↔ is_Some (dict self !! rk) ∧ sk = _simfn self rk;
  wf_sorted :
    _needs_sorting self = false → StronglySorted pair_lt (_list self)
}.

End spec.

Arguments op K V : clear implicits.

(** A dictionary to try things on: numbers as keys, ordered as numbers and
    similar when they share their tens. *)
#[export] Instance nat_Lt : Lt nat := Nat.ltb.

Definition tens (n : nat) : nat := (n / 10)%nat.

Definition sample_ops : list (op nat string) :=
  [SetItem 25 "b"; SetItem 12 "a"; SetItem 31 "d"; SetItem 17 "c";
   DelItem 31; SetItem 12 "e"; DelItem 40; SetItem 10 "f"]%nat.

End SimilarSearchDict_spec.

Module steno_spec.
Import Py steno.

(** No [[1-4]] directly followed by [[6-9]]. *)
Fixpoint no_implicit_pair (s : str) : Prop :=
  match s with
  | a :: ((b :: _) as tl) => rx_1_4 a && rx_6_9 b = false ∧ no_implicit_pair tl
  | _ => True
  end.

(** [_IMPLICIT_NUMBER_RX] matches nowhere in [s]. *)
Definition rx_free (s : str) : Prop :=
  match s with
  | a :: _ => rx_6_9 a = false
  | [] => True
  end ∧ no_implicit_pair s.

(** The number of hyphens of a stroke. *)
Definition hyphens (s : str) : nat := length (filter (λ a, a = "-"%char) s).

(** The stroke as the first rule of [normalize_stroke] leaves it: without
    the number key, when it holds a digit and that key. *)
Definition without_number_key `{System} (s : str) : str :=
  if has_number s && in_letters s NUMBER_KEY
  then replace_by_empty NUMBER_KEY s else s.

(** The strokes that one call of [normalize_stroke] settles, with [t] for
    the stroke without its number key.
    Where [_IMPLICIT_NUMBER_RX] matches in [t], a hyphen goes in before the
    digit 6-9 of the leftmost match: [t] must not end with a hyphen, must
    hold no letter of the implicit hyphens, of which the hyphen must not be
    one, and from that digit on no digit 1-4 may be followed by a digit
    6-9; unless the number key is the hyphen, which the next call takes
    out and puts back.
    Where it does not match and the stroke holds a hyphen: when [t] ends
    with a hyphen, what is left without it must hold no hyphen, or neither
    end with one nor hold a letter of the implicit hyphens; when [t] does
    not end with a hyphen and the stroke holds a letter of the implicit
    hyphens, [_IMPLICIT_NUMBER_RX] must not match in [t] without its
    hyphens.
    A stroke of neither kind is settled. *)
Definition one_call_settles `{System} (s : str) : Prop :=
  let t := without_number_key s in
  match _IMPLICIT_NUMBER_RX_search t with
  | Some start =>
      NUMBER_KEY = ["-"%char] ∨
      (no_implicit_pair (drop start t) ∧
       endswith_hyphen t = false ∧
       has_implicit_hyphen ("-"%char :: t) = false)
  | None =>
      "-"%char ∈ s →
      if endswith_hyphen t then
        "-"%char ∈ removelast t →
        endswith_hyphen (removelast t) = false ∧
        has_implicit_hyphen (removelast t) = false
      else
        has_implicit_hyphen s = true →
        rx_free (replace_by_empty ["-"%char] t)
  end.

(** The keys of a stroke text other than the hyphen and the number key. *)
Definition other_keys `{System} (s : str) : str :=
  filter (λ c, c ≠ "-"%char ∧ [c] ≠ NUMBER_KEY) s.

(** The order of [sort_steno_strokes]: fewer strokes, or as many strokes
    and not more characters. *)
Definition not_longer (a b : str) : Prop :=
  let slashes (x : str) := length (filter (λ c, c = "/"%char) x) in
  (slashes a < slashes b)%nat ∨
  (slashes a = slashes b ∧ (length a ≤ length b)%nat).

(** What is known of the order in which a set is iterated: it goes
    through the elements of the set, each once. *)
Class SetIterLaw (A : Type) `{SetIter A} : Prop :=
  set_iter_perm : ∀ s : gset A, set_iter s ≡ₚ elements s.

(** The order of [sort_steno_keys]: the sort key is not greater. *)
Definition key_order_le `{Layout} (a b : str) : Prop :=
  (default 0 (KEY_ORDER !! a) ≤ default 0 (KEY_ORDER !! b))%Z.

(** A part of Plover's English layout, to run examples: the number bar,
    some keys of the two hands with their numbers, and a vowel. *)
Definition sample_layout : Layout := {|
  KEY_ORDER :=
    list_to_map
      ((λ kn : string * Z, (chars kn.1, kn.2)) <$>
       [("#", 0); ("S-", 1); ("T-", 2); ("A-", 8); ("-F", 13); ("-T", 19);
        ("1-", 1); ("2-", 2); ("5-", 8); ("-6", 13); ("-9", 19)]%string%Z);
  NUMBERS :=
    list_to_map
      ((λ kn : string * string, (chars kn.1, chars kn.2)) <$>
       [("S-", "1-"); ("T-", "2-"); ("A-", "5-"); ("-F", "-6");
        ("-T", "-9")]%string);
  IMPLICIT_HYPHEN_KEYS := list_to_set (chars <$> ["A-"; "5-"]%string);
  UNDO_STROKE_STENO := chars "*"
|}.

(** An order of iteration, to run examples: the one of [elements]. *)
Definition sample_iter : SetIter str := elements.

End steno_spec.

Module StenoDictionary_spec.
Import Py StenoDictionary.

Section spec.
Context {K V : Type} `{Countable K} `{Countable V}.

(** Runs of [__setitem__] and [__delitem__] from the empty dictionary. An
    operation that raises leaves the object as it was when it raised, and
    the run goes on from there. *)
Inductive op : Type :=
| SetItem (k : K) (v : V)
| DelItem (k : K).

Definition apply (self : t K V) (o : op) : outcome (t K V) unit :=
  match o with
  | SetItem k v => __setitem__ self k v
  | DelItem k => __delitem__ self k
  end.

Definition run_from (self : t K V) (ops : list op) : t K V :=
  foldl (λ d o, state_of (apply d o)) self ops.

Definition run (ops : list op) : t K V := run_from __init__ ops.

(** [{k for k in forward if forward[k] == v}] *)
Definition keys_of (forward : gmap K V) (v : V) : gset K :=
  dom (filter (λ kv, kv.2 = v) forward).

(** The keys the reverse index has for a translation. *)
Definition keys_at (rev : ReverseStenoDict.t K V) (v : V) : gset K :=
  default ∅ (ReverseStenoDict.index rev !! v).

(** The reverse index is the inverse of the forward mapping, and holds no
    translation without a key. *)
Record inverse_of (forward : gmap K V) (rev : ReverseStenoDict.t K V)
    : Prop := {
  inverse_keys : ∀ v k, k ∈ keys_at rev v ↔ forward !! k = Some v;
  inverse_no_stale : ∀ v, ReverseStenoDict.index rev !! v ≠ Some ∅
}.

Definition wf (self : t K V) : Prop := inverse_of (dict self) (reverse self).

(** What a collection needs of its members: their [reverse_lookup] gives
    the keys that their forward mapping sends to the value. *)
Definition reverse_exact (self : t K V) : Prop :=
  ∀ v k, k ∈ reverse_lookup self v ↔ dict self !! k = Some v.

End spec.

Arguments op K V : clear implicits.

(** Sample instances, to run examples: stroke sequences as keys, strings as
    translations, compared as strings; lower case on the letters A-Z; two
    translations are one object when they are equal. *)
#[export] Instance string_Lt : Lt string := String.ltb.

Definition ascii_lower (c : ascii) : ascii :=
  let n := nat_of_ascii c in
  if bool_decide (65 ≤ n ≤ 90)%nat then ascii_of_nat (n + 32) else c.

Fixpoint string_lower (s : string) : string :=
  match s with
  | EmptyString => EmptyString
  | String c s' => String (ascii_lower c) (string_lower s')
  end.

#[export] Instance string_Lower : StenoDictionaryCollection.Lower string :=
  string_lower.

#[export] Instance string_Is : StenoDictionaryCollection.Is string :=
  String.eqb.

(** The keys "KAT" and "KAT/-S". *)
Definition K1 : list string := ["KAT"]%string.
Definition K2 : list string := ["KAT"; "-S"]%string.

End StenoDictionary_spec.

Module StenoDictionaryCollection_spec.
Import Py StenoDictionary_spec StenoDictionaryCollection.

(** The collection of the two dictionaries that two lists of entries
    build, the first of highest priority. *)
Definition two_members {K V : Type} `{Countable K} `{Countable V}
    (a b : list (K * V)) : t K V :=
  __init__ [run ((λ kv, SetItem kv.1 kv.2) <$> a);
            run ((λ kv, SetItem kv.1 kv.2) <$> b)].

(** A filter that vetoes the translation "cat". *)
Definition no_cat (key : list string) (value : string) : bool :=
  String.eqb value "cat".

End StenoDictionaryCollection_spec.

(** ** Part III: properties *)

(** *** Sorting and bisection *)
Module Py_facts.
Import Py Py_spec.

Section order.
Context {A : Type} (ltb : A → A → bool).
Hypothesis ltb_irrefl : ∀ a, ltb a a = false.
Hypothesis ltb_trans : ∀ a b c, ltb a b = true → ltb b c = true → ltb a c = true.
Hypothesis ltb_total : ∀ a b, a ≠ b → ltb a b = true ∨ ltb b a = true.

Local Abbreviation R := (lt_rel ltb).

Lemma insort_Permutation x l : insort ltb x l ≡ₚ x :: l.
Proof.
  induction l as [|y l IH]; simpl; [done|].
  destruct (ltb x y); [done|]. rewrite IH. apply Permutation_swap.
Qed.

Lemma insort_sorted x l :
  x ∉ l → StronglySorted R l → StronglySorted R (insort ltb x l).
Proof.
  intros Hx Hl. induction Hl as [|y l Hl IH Hy]; simpl.
  - repeat constructor.
  - destruct (ltb x y) eqn:E.
    + constructor; [by constructor|]. constructor; [done|].
      eapply Forall_impl; [exact Hy|]. intros z Hz. by eapply ltb_trans.
    + apply not_elem_of_cons in Hx as [Hxy Hx].
      constructor; [by apply IH|].
      rewrite insort_Permutation. constructor; [|done].
      destruct (ltb_total x y Hxy) as [?|?]; [congruence|done].
Qed.

Lemma sorted_aux acc l :
  StronglySorted R acc → NoDup (acc ++ l) →
  StronglySorted R (foldl (λ acc x, insort ltb x acc) acc l) ∧
  foldl (λ acc x, insort ltb x acc) acc l ≡ₚ acc ++ l.
Proof.
  revert acc. induction l as [|x l IH]; intros acc Hacc Hnd; simpl.
  - by rewrite app_nil_r.
  - assert (acc ++ x :: l ≡ₚ insort ltb x acc ++ l) as Hp.
    { rewrite insort_Permutation. simpl. symmetry. apply Permutation_middle. }
    destruct (IH (insort ltb x acc)) as [Hs Hperm].
    + apply insort_sorted; [|done].
      apply NoDup_app in Hnd as (_ & Hd & _). intros Hin.
      apply (Hd x Hin). left.
    + by rewrite <-Hp.
    + split; [done|]. by rewrite Hperm, Hp.
Qed.

Lemma sorted_sorted l : NoDup l → StronglySorted R (sorted ltb l).
Proof. intros Hl. apply sorted_aux; [constructor|done]. Qed.

Lemma sorted_Permutation l : NoDup l → sorted ltb l ≡ₚ l.
Proof. intros Hl. apply (sorted_aux [] l); [constructor|done]. Qed.

End order.

Section bisect.
Context {A : Type} (p : A → bool) (a : list A).

Lemma split_at_lt n i e :
  split_at p a n → a !! i = Some e → p e = true → (i < n)%nat.
Proof.
  intros [_ Hd] Hi He. destruct (decide (i < n)%nat) as [|Hge]; [done|].
  rewrite Forall_lookup in Hd. specialize (Hd (i - n)%nat e).
  rewrite lookup_drop in Hd. replace (n + (i - n))%nat with i in Hd by lia.
  rewrite Hd in He; done.
Qed.

Lemma split_at_ge n i e :
  split_at p a n → a !! i = Some e → p e = false → (n ≤ i)%nat.
Proof.
  intros [Ht _] Hi He. destruct (decide (n ≤ i)%nat) as [|Hlt]; [done|].
  rewrite Forall_lookup in Ht. specialize (Ht i e).
  rewrite lookup_take_lt in Ht by lia. rewrite Ht in He; done.
Qed.

Lemma bisect_loop_split n fuel lo hi :
  split_at p a n → (lo ≤ n ≤ hi)%nat → (hi ≤ length a)%nat →
  (hi - lo < fuel)%nat →
  bisect_loop p a fuel lo hi = n.
Proof.
  intros Hs. revert lo hi.
  induction fuel as [|fuel IH]; intros lo hi Hn Hhi Hf; [lia|].
  cbn [bisect_loop].
  case_decide as Hlt; [|lia].
  pose proof (Nat.div_mod_eq (lo + hi) 2) as Hdiv.
  pose proof (Nat.mod_upper_bound (lo + hi) 2) as Hmod.
  set (mid := ((lo + hi) / 2)%nat) in *.
  assert (lo ≤ mid < hi)%nat as Hmid by lia.
  destruct (lookup_lt_is_Some_2 a mid) as [e He]; [lia|]. rewrite He.
  destruct (p e) eqn:Ep.
  - pose proof (split_at_lt n mid e Hs He Ep). apply IH; lia.
  - pose proof (split_at_ge n mid e Hs He Ep). apply IH; lia.
Qed.

(** [bisect_left] finds the place where a list splits. *)
Lemma bisect_left_split n :
  split_at p a n → (n ≤ length a)%nat → bisect_left p a = n.
Proof. intros Hs Hn. apply bisect_loop_split; [done|lia..]. Qed.

End bisect.

(** A list sorted for [R] splits for every [p] that [R] carries backwards. *)
Lemma sorted_split_at {A} (R : relation A) (p : A → bool) (a : list A) :
  (∀ x y, R x y → p y = true → p x = true) →
  StronglySorted R a →
  ∃ n, (n ≤ length a)%nat ∧ split_at p a n.
Proof.
  intros Hp Ha. induction Ha as [|x a Ha (n & Hn & Ht & Hd) Hx].
  - exists 0%nat. by repeat split.
  - destruct (p x) eqn:Ex.
    + exists (S n). simpl. split; [lia|]. split; [by constructor|done].
    + exists 0%nat. simpl. split; [lia|]. split; [constructor|].
      constructor; [done|]. rewrite Forall_forall in Hx.
      apply Forall_forall. intros y Hy.
      destruct (p y) eqn:Ey; [|done]. by rewrite (Hp x y (Hx y Hy) Ey) in Ex.
Qed.

Lemma StronglySorted_drop {A} (R : relation A) (n : nat) (l : list A) :
  StronglySorted R l → StronglySorted R (drop n l).
Proof.
  intros Hs. rewrite <-(take_drop n l) in Hs.
  by apply StronglySorted_app_1_r in Hs.
Qed.

Lemma elem_of_drop_1 {A} (x : A) (n : nat) (l : list A) :
  x ∈ drop n l → x ∈ l.
Proof. intros Hx. rewrite <-(take_drop n l). apply elem_of_app. by right. Qed.

Lemma elem_of_take_drop {A} (x : A) (n : nat) (l : list A) :
  x ∈ l → x ∈ take n l ∨ x ∈ drop n l.
Proof. intros Hx. apply elem_of_app. by rewrite take_drop. Qed.

Section tuples.
Context {A B : Type} `{EqDecision A, EqDecision B}.
Context `{TotalLt A, TotalLt B}.

Lemma lt_asym {C} `{TotalLt C} (a b : C) : lt a b = true → lt b a = false.
Proof.
  intros Hab. destruct (lt b a) eqn:E; [|done].
  by rewrite <-(lt_irrefl a), (lt_trans a b a).
Qed.

Lemma tuple2_lt_irrefl (x : A * B) : tuple2_lt x x = false.
Proof. unfold tuple2_lt. by rewrite !decide_True. Qed.

Lemma tuple2_lt_trans (x y z : A * B) :
  tuple2_lt x y = true → tuple2_lt y z = true → tuple2_lt x z = true.
Proof.
  destruct x as [x1 x2], y as [y1 y2], z as [z1 z2]. unfold tuple2_lt. simpl.
  repeat case_decide; subst; try done; intros Hxy Hyz;
    solve [ by eapply lt_trans | by rewrite (lt_asym _ _ Hxy) in Hyz ].
Qed.

Lemma tuple2_lt_total (x y : A * B) :
  x ≠ y → tuple2_lt x y = true ∨ tuple2_lt y x = true.
Proof.
  destruct x as [x1 x2], y as [y1 y2]. unfold tuple2_lt. simpl. intros Hne.
  repeat case_decide; subst; try done; apply lt_total; congruence.
Qed.

End tuples.

End Py_facts.

Module steno_facts.
Import Py steno steno_spec.

Lemma pair_None pos s :
  _IMPLICIT_NUMBER_RX_pair pos s = None ↔ no_implicit_pair s.
Proof.
  revert pos. induction s as [|a [|b tl] IH]; intros pos; simpl; [done..|].
  destruct (rx_1_4 a && rx_6_9 b) eqn:E.
  - split; [done|intros [? _]; done].
  - rewrite (IH (S pos)). simpl. tauto.
Qed.

Lemma search_None s : _IMPLICIT_NUMBER_RX_search s = None ↔ rx_free s.
Proof.
  unfold _IMPLICIT_NUMBER_RX_search, rx_free. destruct s as [|a tl]; [done|].
  destruct (rx_6_9 a) eqn:E.
  - split; [done|intros [? _]; done].
  - rewrite pair_None. tauto.
Qed.

Lemma no_implicit_pair_tail a s : no_implicit_pair (a :: s) → no_implicit_pair s.
Proof. destruct s; simpl; tauto. Qed.

Lemma rx_6_9_number c : rx_6_9 c = true → bool_decide (c ∈ _NUMBERS) = true.
Proof.
  unfold rx_6_9, _NUMBERS. rewrite !bool_decide_eq_true.
  vm_compute chars. rewrite !elem_of_cons. tauto.
Qed.

Lemma has_number_false s c :
  has_number s = false → c ∈ s → bool_decide (c ∈ _NUMBERS) = false.
Proof.
  unfold has_number. intros Hn Hc.
  destruct (bool_decide (c ∈ _NUMBERS)) eqn:E; [|done].
  assert (existsb (λ c, bool_decide (c ∈ _NUMBERS)) s = true) as Ht; [|congruence].
  apply existsb_exists. exists c. split; [by apply list_elem_of_In|done].
Qed.

Lemma no_number_rx_free s : has_number s = false → rx_free s.
Proof.
  intros Hn. split.
  - destruct s as [|a tl]; [done|].
    destruct (rx_6_9 a) eqn:E; [|done].
    apply rx_6_9_number in E.
    rewrite (has_number_false _ a Hn) in E; [done|set_solver].
  - induction s as [|a [|b tl] IH]; simpl; [done..|]. split.
    + destruct (rx_6_9 b) eqn:E; [|by rewrite andb_false_r].
      apply rx_6_9_number in E.
      rewrite (has_number_false _ b Hn) in E; [done|set_solver].
    + apply IH. unfold has_number in *. simpl in *.
      by apply orb_false_elim in Hn as [_ ?].
Qed.

Lemma rx_free_removelast s : rx_free s → rx_free (removelast s).
Proof.
  unfold rx_free. intros [Hh Hp]. split.
  - destruct s as [|a [|b tl]]; done.
  - clear Hh. induction s as [|a [|b tl] IH]; [done..|].
    destruct Hp as [Hab Hp]. specialize (IH Hp).
    change (removelast (a :: b :: tl)) with (a :: removelast (b :: tl)).
    destruct tl as [|c tl]; [done|].
    change (removelast (b :: c :: tl)) with (b :: removelast (c :: tl)) in *.
    split; done.
Qed.

Lemma in_letters_mono (t s x : str) :
  t ⊆ s → in_letters s x = false → in_letters t x = false.
Proof.
  unfold in_letters. destruct x as [|c [|]]; [done| |done].
  rewrite !bool_decide_eq_false. intros Hts Hs Ht. apply Hs, Hts, Ht.
Qed.

Lemma has_number_mono (t s : str) :
  t ⊆ s → has_number s = false → has_number t = false.
Proof.
  intros Hts Hs. unfold has_number.
  destruct (existsb _ t) eqn:E; [|done].
  apply existsb_exists in E as (c & Hc & Hn). apply list_elem_of_In in Hc.
  by rewrite (has_number_false s c Hs (Hts _ Hc)) in Hn.
Qed.

Lemma has_implicit_hyphen_mono `{System} (t s : str) :
  t ⊆ s → has_implicit_hyphen s = false → has_implicit_hyphen t = false.
Proof.
  intros Hts Hs. unfold has_implicit_hyphen in *.
  destruct (existsb _ _) eqn:E in |- *; [|done].
  apply existsb_exists in E as (x & Hx & Hin).
  assert (in_letters s x = false) as Hf.
  { destruct (in_letters s x) eqn:E'; [|done].
    assert (existsb (in_letters s) IMPLICIT_HYPHENS = true) as Ht; [|congruence].
    apply existsb_exists; eauto. }
  by rewrite (in_letters_mono t s x Hts Hf) in Hin.
Qed.

Lemma in_letters_replaced s x : in_letters (replace_by_empty x s) x = false.
Proof.
  unfold in_letters, replace_by_empty. destruct x as [|c [|]]; [done| |done].
  apply bool_decide_eq_false. rewrite list_elem_of_filter. tauto.
Qed.

Lemma replace_by_empty_subseteq x s : replace_by_empty x s ⊆ s.
Proof.
  unfold replace_by_empty. destruct x as [|c [|]]; [done| |done].
  apply list_subseteq_filter.
Qed.

Lemma removelast_subseteq (s : str) : removelast s ⊆ s.
Proof.
  destruct (decide (s = [])) as [->|Hne]; [done|].
  rewrite (app_removelast_last "-"%char Hne) at 2. set_solver.
Qed.

Lemma hyphen_free_removelast (s : str) :
  hyphens s ≤ 1 → endswith_hyphen s = true → "-"%char ∉ removelast s.
Proof.
  unfold endswith_hyphen, hyphens. rewrite bool_decide_eq_true.
  intros Hh [l ->]%last_Some. rewrite removelast_last.
  rewrite filter_app, length_app in Hh. simpl in Hh.
  intros Hin.
  assert ("-"%char ∈ filter (λ a, a = "-"%char) l) as Hf
    by by apply list_elem_of_filter.
  destruct (filter _ l); [by apply elem_of_nil in Hf|simpl in Hh; lia].
Qed.

(** A stroke on which no rule applies is returned as it is. *)
Lemma normalize_stroke_fixed `{System} (t : str) :
  has_number t && in_letters t NUMBER_KEY = false →
  (has_number t = true → rx_free t) →
  ("-"%char ∈ t → endswith_hyphen t = false ∧ has_implicit_hyphen t = false) →
  normalize_stroke t = t.
Proof.
  intros Hnk Hrx Hhy. unfold normalize_stroke.
  destruct (has_number t) eqn:En; simpl in Hnk.
  - rewrite Hnk. apply search_None in Hrx as ->; [|done].
    case_bool_decide as Hin; [|done].
    destruct (Hhy Hin) as [-> ->]. done.
  - case_bool_decide as Hin; [|done].
    destruct (Hhy Hin) as [-> ->]. done.
Qed.

(** The stroke once the number key is taken out as the first rule does. *)
Lemma normalize_stroke_no_match `{System} (s : str) :
  let s0 := if has_number s && in_letters s NUMBER_KEY
            then replace_by_empty NUMBER_KEY s else s in
  (has_number s = true → rx_free s0) →
  normalize_stroke s =
    if bool_decide ("-"%char ∈ s) then
      if endswith_hyphen s0 then removelast s0
      else if has_implicit_hyphen s
           then replace_by_empty ["-"%char] s0 else s0
    else s0.
Proof.
  intros s0 Hrx. unfold normalize_stroke. subst s0.
  destruct (has_number s) eqn:En; simpl in *; [|done].
  destruct (in_letters s NUMBER_KEY) eqn:Ek;
    apply search_None in Hrx as ->; done.
Qed.

Lemma replace_by_empty_absent x s :
  in_letters s x = false → replace_by_empty x s = s.
Proof.
  unfold in_letters, replace_by_empty. destruct x as [|c [|]]; [done| |done].
  rewrite bool_decide_eq_false. intros Hc.
  induction s as [|a tl IH]; [done|].
  rewrite filter_cons_True by set_solver. f_equal. apply IH. set_solver.
Qed.

(** C4, on the code: [normalize_stroke] undoes "--" in two rounds, one
    hyphen a round, so it is not idempotent on every string. *)
Lemma normalize_stroke_not_idempotent :
  @normalize_stroke english_stenotype
     (@normalize_stroke english_stenotype (chars "--"))
  ≠ @normalize_stroke english_stenotype (chars "--").
Proof. vm_compute. discriminate. Qed.

Lemma rx_1_4_hyphen : rx_1_4 "-" = false.
Proof. vm_compute. reflexivity. Qed.

Lemma rx_6_9_hyphen : rx_6_9 "-" = false.
Proof. vm_compute. reflexivity. Qed.

(** A hyphen cuts the stroke in two for the pairs of the pattern. *)
Lemma no_implicit_pair_hyphen (l1 l2 : str) :
  no_implicit_pair (l1 ++ "-"%char :: l2)
  ↔ no_implicit_pair l1 ∧ no_implicit_pair l2.
Proof.
  induction l1 as [|a l1 IH].
  - destruct l2 as [|b l2]; simpl; tauto.
  - destruct l1 as [|b l1].
    + change (no_implicit_pair ([a] ++ "-"%char :: l2))
        with (rx_1_4 a && rx_6_9 "-" = false ∧
              no_implicit_pair ([] ++ "-"%char :: l2)).
      rewrite IH, rx_6_9_hyphen, andb_false_r. simpl. tauto.
    + change (no_implicit_pair ((a :: b :: l1) ++ "-"%char :: l2))
        with (rx_1_4 a && rx_6_9 b = false ∧
              no_implicit_pair ((b :: l1) ++ "-"%char :: l2)).
      rewrite IH. simpl. tauto.
Qed.

(** The leftmost match after the start: where it is, and that no pair of
    the pattern comes before it. *)
Lemma pair_Some pos s start :
  _IMPLICIT_NUMBER_RX_pair pos s = Some start →
  ∃ n, start = (pos + S n)%nat ∧ (S n < length s)%nat ∧
       no_implicit_pair (take (S n) s).
Proof.
  revert pos. induction s as [|a [|b tl] IH]; intros pos; [done..|].
  cbn [_IMPLICIT_NUMBER_RX_pair]. destruct (rx_1_4 a && rx_6_9 b) eqn:E.
  - intros [= <-]. exists 0%nat. split; [lia|]. split; [simpl; lia|done].
  - intros (n & -> & Hlt & Hn)%IH. exists (S n).
    split; [lia|]. split; [simpl in *; lia|].
    change (take (S (S n)) (a :: b :: tl)) with (a :: b :: take n tl).
    change (take (S n) (b :: tl)) with (b :: take n tl) in Hn.
    split; done.
Qed.

Lemma search_Some_lt s start :
  _IMPLICIT_NUMBER_RX_search s = Some start → (start < length s)%nat.
Proof.
  unfold _IMPLICIT_NUMBER_RX_search. destruct s as [|a tl]; [done|].
  destruct (rx_6_9 a).
  - intros [= <-]. simpl. lia.
  - intros (n & -> & Hlt & _)%pair_Some. lia.
Qed.

(** With the hyphen put in at the leftmost match, the pattern can match
    only further on. *)
Lemma rx_free_insert s start :
  _IMPLICIT_NUMBER_RX_search s = Some start →
  rx_free (take start s ++ "-"%char :: drop start s)
  ↔ no_implicit_pair (drop start s).
Proof.
  unfold _IMPLICIT_NUMBER_RX_search. destruct s as [|a tl]; [done|].
  destruct (rx_6_9 a) eqn:E.
  - intros [= <-].
    change (rx_6_9 "-" = false ∧
            no_implicit_pair ([] ++ "-"%char :: a :: tl)
            ↔ no_implicit_pair (a :: tl)).
    rewrite no_implicit_pair_hyphen, rx_6_9_hyphen. simpl. tauto.
  - intros (n & -> & Hlt & Hn)%pair_Some.
    change (take (0 + S n) (a :: tl)) with (a :: take n tl) in *.
    change (rx_6_9 a = false ∧
            no_implicit_pair ((a :: take n tl) ++ "-"%char ::
                              drop (S n) (a :: tl))
            ↔ no_implicit_pair (drop (S n) (a :: tl))).
    rewrite no_implicit_pair_hyphen. tauto.
Qed.

Lemma search_Some_has_number s start :
  _IMPLICIT_NUMBER_RX_search s = Some start → has_number s = true.
Proof.
  intros Hs. destruct (has_number s) eqn:En; [done|].
  apply no_number_rx_free, search_None in En. congruence.
Qed.

(** The stroke with a hyphen put in at [n]: its characters, whether it
    holds a digit, and how it ends. *)
Lemma elem_of_insert_hyphen (t : str) n c :
  c ∈ take n t ++ "-"%char :: drop n t ↔ c = "-"%char ∨ c ∈ t.
Proof.
  rewrite <-(take_drop n t) at 3.
  rewrite !elem_of_app, elem_of_cons. tauto.
Qed.

Lemma has_number_insert_hyphen (t : str) n :
  has_number (take n t ++ "-"%char :: drop n t) = has_number t.
Proof.
  assert (bool_decide ("-"%char ∈ _NUMBERS) = false) as Hh
    by (vm_compute; reflexivity).
  unfold has_number. rewrite <-(take_drop n t) at 3.
  rewrite !existsb_app. cbn [existsb]. by rewrite Hh.
Qed.

Lemma endswith_insert_hyphen (t : str) n :
  (n < length t)%nat →
  endswith_hyphen (take n t ++ "-"%char :: drop n t) = endswith_hyphen t.
Proof.
  intros Hn. unfold endswith_hyphen. apply bool_decide_ext.
  assert (last (take n t ++ "-"%char :: drop n t) = last t) as ->; [|done].
  transitivity (last (take n t ++ drop n t)); [|by rewrite take_drop].
  destruct (drop n t) as [|b l] eqn:Ed.
  { apply (f_equal length) in Ed. rewrite length_drop in Ed. simpl in Ed. lia. }
  by rewrite !last_app_cons, last_cons_cons.
Qed.

Lemma in_letters_equiv (l1 l2 x : str) :
  (∀ c, c ∈ l1 ↔ c ∈ l2) → in_letters l1 x = in_letters l2 x.
Proof.
  intros Hl. unfold in_letters. destruct x as [|c [|]]; [done| |done].
  apply bool_decide_ext, Hl.
Qed.

Lemma has_implicit_hyphen_equiv `{System} (l1 l2 : str) :
  (∀ c, c ∈ l1 ↔ c ∈ l2) → has_implicit_hyphen l1 = has_implicit_hyphen l2.
Proof.
  intros Hl. unfold has_implicit_hyphen.
  induction IMPLICIT_HYPHENS as [|x xs IH]; [done|]. simpl.
  by rewrite IH, (in_letters_equiv l1 l2 x Hl).
Qed.

(** The second and third rule leave a stroke as it is only where they do
    not apply. *)
Lemma hyphen_rules_fixed `{System} (t : str) :
  (if bool_decide ("-"%char ∈ t) then
     if endswith_hyphen t then removelast t
     else if has_implicit_hyphen t
          then replace_by_empty ["-"%char] t else t
   else t) = t →
  "-"%char ∈ t → endswith_hyphen t = false ∧ has_implicit_hyphen t = false.
Proof.
  intros Heq Hin. rewrite bool_decide_true in Heq by done.
  destruct (endswith_hyphen t) eqn:Ee.
  - exfalso. unfold endswith_hyphen in Ee.
    apply bool_decide_eq_true, last_Some in Ee as [l ->].
    rewrite removelast_last in Heq. apply (f_equal length) in Heq.
    rewrite length_app in Heq. simpl in Heq. lia.
  - split; [done|]. destruct (has_implicit_hyphen t); [|done].
    exfalso. rewrite <-Heq in Hin.
    apply list_elem_of_filter in Hin as [Hne _]. done.
Qed.

(** The strokes that [normalize_stroke] returns as they are, among those
    from which the number key is not to be taken: the ones on which no
    rule applies. *)
Lemma normalize_stroke_fixed_iff `{System} (t : str) :
  has_number t && in_letters t NUMBER_KEY = false →
  normalize_stroke t = t ↔
  (has_number t = true → rx_free t) ∧
  ("-"%char ∈ t → endswith_hyphen t = false ∧ has_implicit_hyphen t = false).
Proof.
  intros Hnk. split; [|intros [? ?]; by apply normalize_stroke_fixed].
  unfold normalize_stroke.
  destruct (has_number t) eqn:En; simpl in Hnk.
  - rewrite Hnk.
    destruct (_IMPLICIT_NUMBER_RX_search t) as [start|] eqn:Es.
    + intros Heq. exfalso. apply (f_equal length) in Heq.
      rewrite length_app, length_take in Heq. simpl in Heq.
      rewrite length_drop in Heq. lia.
    + intros Heq. split; [intros _; by apply search_None|].
      by apply hyphen_rules_fixed.
  - intros Heq. split; [done|]. by apply hyphen_rules_fixed.
Qed.

(** Where the pattern matches, the hyphen goes in at the match. *)
Lemma normalize_stroke_match `{System} (s : str) start :
  _IMPLICIT_NUMBER_RX_search (without_number_key s) = Some start →
  normalize_stroke s
  = take start (without_number_key s)
    ++ "-"%char :: drop start (without_number_key s).
Proof.
  intros Hs. assert (has_number s = true) as Hn.
  { destruct (has_number s) eqn:En; [done|].
    unfold without_number_key in Hs. rewrite En in Hs. simpl in Hs.
    apply search_Some_has_number in Hs. congruence. }
  unfold normalize_stroke, without_number_key in *. rewrite Hn in *.
  simpl in Hs. by rewrite Hs.
Qed.

(** C4, as amended: the strokes on which [normalize_stroke] is idempotent
    are exactly the ones that one call settles. On the others the second
    call puts in another hyphen, or takes out one that the first call
    left or put in. *)
Theorem normalize_stroke_idempotent `{System} (s : str) :
  normalize_stroke (normalize_stroke s) = normalize_stroke s
  ↔ one_call_settles s.
Proof.
  unfold one_call_settles.
  set (s0 := without_number_key s).
  assert (s0 ⊆ s) as Hsub.
  { subst s0. unfold without_number_key.
    destruct (_ && _); [apply replace_by_empty_subseteq|done]. }
  assert (∀ t, t ⊆ s0 → has_number t && in_letters t NUMBER_KEY = false) as HA.
  { intros t Ht. destruct (has_number s) eqn:En.
    - rewrite (in_letters_mono t s0 NUMBER_KEY Ht); [apply andb_false_r|].
      subst s0. unfold without_number_key. rewrite En. simpl.
      destruct (in_letters s NUMBER_KEY) eqn:Ek; [|done].
      apply in_letters_replaced.
    - rewrite (has_number_mono t s); [done| |done]. by etrans. }
  destruct (_IMPLICIT_NUMBER_RX_search s0) as [start|] eqn:Es.
  - (* the hyphen goes in *)
    rewrite (normalize_stroke_match s start Es). fold s0.
    set (r := take start s0 ++ "-"%char :: drop start s0).
    pose proof (search_Some_has_number _ _ Es) as Hn0.
    pose proof (search_Some_lt _ _ Es) as Hlt.
    assert (has_number r = true) as Hnr
      by (subst r; by rewrite has_number_insert_hyphen).
    destruct (decide (NUMBER_KEY = ["-"%char])) as [HN|HN].
    + split; [by left|]. intros _.
      assert ("-"%char ∉ s0) as Hno.
      { pose proof (HA s0 (reflexivity _)) as Hk.
        rewrite Hn0, HN in Hk. simpl in Hk.
        by apply bool_decide_eq_false in Hk. }
      assert (without_number_key r = s0) as Hr0.
      { unfold without_number_key. rewrite Hnr, HN. simpl.
        rewrite bool_decide_true by (subst r; apply elem_of_insert_hyphen; by left).
        subst r. rewrite filter_app, filter_cons_False by (intros ?; done).
        rewrite <-filter_app, take_drop.
        apply (replace_by_empty_absent ["-"%char]). simpl.
        by apply bool_decide_eq_false. }
      rewrite (normalize_stroke_match r start); rewrite Hr0; done.
    + assert (has_number r && in_letters r NUMBER_KEY = false) as Hkr.
      { rewrite Hnr. simpl.
        pose proof (HA s0 (reflexivity _)) as Hk. rewrite Hn0 in Hk.
        simpl in Hk. unfold in_letters in *.
        destruct NUMBER_KEY as [|c [|]]; [done| |done].
        apply bool_decide_eq_false in Hk. apply bool_decide_eq_false.
        subst r. rewrite elem_of_insert_hyphen. intros [->|?]; done. }
      rewrite (normalize_stroke_fixed_iff r Hkr).
      assert (has_implicit_hyphen r = has_implicit_hyphen ("-"%char :: s0))
        as Hir.
      { apply has_implicit_hyphen_equiv. intros c. subst r.
        rewrite elem_of_insert_hyphen, elem_of_cons. done. }
      assert (endswith_hyphen r = endswith_hyphen s0) as Her
        by (subst r; by apply endswith_insert_hyphen).
      assert ("-"%char ∈ r) as Hin
        by (subst r; apply elem_of_insert_hyphen; by left).
      rewrite Hir, Her. split.
      * intros [Hrx Hh]. right. split; [|by apply Hh].
        by apply (rx_free_insert s0 start Es), Hrx.
      * intros [?|(Hp & He & Hi)]; [done|]. split; [|done].
        intros _. by apply (rx_free_insert s0 start Es).
  - (* no hyphen goes in *)
    apply search_None in Es.
    rewrite (normalize_stroke_no_match s) by done.
    unfold without_number_key in s0. fold s0.
    case_bool_decide as Hin.
    + destruct (endswith_hyphen s0) eqn:Ee.
      * rewrite normalize_stroke_fixed_iff by apply HA, removelast_subseteq.
        split; [intros [_ Hh] _; exact Hh|]. intros HP.
        split; [intros _; by apply rx_free_removelast|by apply HP].
      * destruct (has_implicit_hyphen s) eqn:Ei.
        -- rewrite normalize_stroke_fixed_iff
             by apply HA, replace_by_empty_subseteq.
           split.
           ++ intros [Hrx _] _ _.
              destruct (has_number (replace_by_empty ["-"%char] s0)) eqn:En;
                [by apply Hrx|by apply no_number_rx_free].
           ++ intros HP. split; [intros _; by apply HP|].
              intros Hc. apply list_elem_of_filter in Hc as [? _]. done.
        -- rewrite normalize_stroke_fixed_iff by by apply HA.
           split; [intros _ _ ?; done|]. intros _. split; [done|].
           intros _. split; [done|].
           by apply (has_implicit_hyphen_mono _ s).
    + rewrite normalize_stroke_fixed_iff by by apply HA.
      split; [intros _ ?; done|]. intros _. split; [done|].
      intros Hc. destruct Hin. by apply Hsub.
Qed.

(** The strokes of everyday use are among the settled ones: no digit and
    at most one hyphen. *)
Lemma one_call_settles_plain `{System} (s : str) :
  has_number s = false → hyphens s ≤ 1 → one_call_settles s.
Proof.
  intros Hn Hh. unfold one_call_settles, without_number_key.
  rewrite Hn. simpl.
  pose proof (no_number_rx_free s Hn) as Hrx.
  apply search_None in Hrx as Hs. rewrite Hs. intros Hin.
  destruct (endswith_hyphen s) eqn:Ee.
  - intros Hc. by apply hyphen_free_removelast in Hc.
  - intros _. apply no_number_rx_free, (has_number_mono _ s); [|done].
    apply (replace_by_empty_subseteq ["-"%char]).
Qed.

(** The three other ways in which a second call undoes or adds to the
    first, under the English layout: a hyphen that the first call puts in
    comes to stand last but one, or beside an implicit-hyphen letter, or
    before a second match. *)
Example normalize_stroke_second_call :
  let f := @normalize_stroke english_stenotype in
  (f (chars "6-") = chars "-6-" ∧ f (chars "-6-") = chars "-6") ∧
  (f (chars "6A") = chars "-6A" ∧ f (chars "-6A") = chars "6A") ∧
  (f (chars "1627") = chars "1-627" ∧ f (chars "1-627") = chars "1-62-7").
Proof. vm_compute. done. Qed.

(** Strokes in which the pattern matches and that one call settles, under
    the English layout. *)
Example normalize_stroke_settled_samples :
  let f := @normalize_stroke english_stenotype in
  (f (chars "6") = chars "-6" ∧ f (chars "-6") = chars "-6") ∧
  (f (chars "16") = chars "1-6" ∧ f (chars "1-6") = chars "1-6") ∧
  (f (chars "#16") = chars "1-6").
Proof. vm_compute. done. Qed.

(** The amended C4 at the number stroke "#16" of the English layout, in
    which the pattern matches: it normalises to "1-6", which normalises to
    itself. *)
Lemma normalize_stroke_idempotent_witness :
  @normalize_stroke english_stenotype
     (@normalize_stroke english_stenotype (chars "#16"))
  = @normalize_stroke english_stenotype (chars "#16").
Proof.
  apply (proj2 (@normalize_stroke_idempotent english_stenotype (chars "#16"))).
  vm_compute. right. split; [exact I|]. split; reflexivity.
Defined.

End steno_facts.

(** *** The similarity index *)
Module SimilarSearchDict_facts.
Import Py Py_spec Py_facts SimilarSearchDict SimilarSearchDict_spec.

Section facts.
Context {K S V : Type} `{Countable K} `{EqDecision S}.
Context `{TotalLt K} `{TotalLt S}.

Implicit Types (self : t K S V) (k rk : K) (sk : S).

Lemma wf_init (simfn : K → S) : wf (__init__ (V:=V) simfn).
Proof.
  split; simpl.
  - constructor.
  - intros sk rk. rewrite lookup_empty, elem_of_nil.
    split; [done|]. intros [[? ?] _]. done.
  - constructor.
Qed.

Lemma sorted_pairs_Permutation (l : list (S * K)) :
  NoDup l → sorted tuple2_lt l ≡ₚ l.
Proof.
  apply sorted_Permutation; eauto using tuple2_lt_trans, tuple2_lt_total.
Qed.

Lemma sorted_pairs_sorted (l : list (S * K)) :
  NoDup l → StronglySorted pair_lt (sorted tuple2_lt l).
Proof.
  apply sorted_sorted; eauto using tuple2_lt_trans, tuple2_lt_total.
Qed.

Lemma wf_sort self : wf self → wf (sort self).
Proof.
  intros [Hnd Hent Hs]. split; simpl.
  - by rewrite sorted_pairs_Permutation.
  - intros sk rk. by rewrite sorted_pairs_Permutation.
  - intros _. by apply sorted_pairs_sorted.
Qed.

Lemma wf_setitem self k v : wf self → wf (state_of (__setitem__ self k v)).
Proof.
  intros [Hnd Hent Hs]. unfold __setitem__.
  destruct (dict self !! k) as [v0|] eqn:Ek; simpl; split; simpl.
  - done.
  - intros sk rk. rewrite Hent. destruct (decide (rk = k)) as [->|Hne].
    + rewrite lookup_insert_eq, Ek. split; intros [_ ->]; eauto.
    + by rewrite lookup_insert_ne.
  - done.
  - apply NoDup_app. split; [done|]. split; [|apply NoDup_singleton].
    intros [sk rk] Hin [= -> ->]%list_elem_of_singleton.
    apply Hent in Hin as [[? Hin] _]. congruence.
  - intros sk rk. rewrite elem_of_app, list_elem_of_singleton, Hent.
    destruct (decide (rk = k)) as [->|Hne].
    + rewrite lookup_insert_eq, Ek. split.
      * intros [[[? ?] _]|[= ->]]; [done|]. eauto.
      * intros [_ ->]. by right.
    + rewrite lookup_insert_ne by done. split; [|tauto].
      intros [?|[= _ ?]]; done.
  - done.
Qed.

(** In a sorted list without repetition [bisect_left] finds the place of
    each of its elements. *)
Lemma bisect_left_elem (l1 l2 : list (S * K)) (x : S * K) :
  StronglySorted pair_lt (l1 ++ x :: l2) →
  bisect_left (λ e, tuple2_lt e x) (l1 ++ x :: l2) = length l1.
Proof.
  intros (H12 & _ & Hx%StronglySorted_cons)%StronglySorted_app.
  destruct Hx as [Hx _].
  apply bisect_left_split; [|rewrite length_app; lia].
  split.
  - rewrite take_app_length. apply Forall_forall. intros e He.
    apply (H12 e x He). left.
  - rewrite drop_app_length. constructor; [apply tuple2_lt_irrefl|].
    eapply Forall_impl; [exact Hx|]. intros y Hy.
    destruct (tuple2_lt y x) eqn:E; [|done].
    by rewrite <-(tuple2_lt_irrefl x), (tuple2_lt_trans x y x).
Qed.

Lemma delitem_present self k v0 :
  wf self → dict self !! k = Some v0 →
  ∃ self', __delitem__ self k = Normal tt self' ∧ wf self' ∧
           dict self' = delete k (dict self) ∧ _simfn self' = _simfn self.
Proof.
  intros Hwf Hk. unfold __delitem__. rewrite Hk. cbn zeta.
  set (self1 := {| dict := delete k (dict self); _list := _list self;
                   _needs_sorting := _needs_sorting self;
                   _simfn := _simfn self |}).
  set (self2 := if _needs_sorting self1 then sort self1 else self1).
  assert (dict self2 = delete k (dict self) ∧ _simfn self2 = _simfn self ∧
          _needs_sorting self2 = false ∧ NoDup (_list self2) ∧
          StronglySorted pair_lt (_list self2) ∧
          ∀ x, x ∈ _list self2 ↔ x ∈ _list self)
    as (Hd & Hf & Hn & Hnd & Hs & Hin).
  { destruct Hwf as [Hnd Hent Hs]. subst self2 self1. simpl.
    destruct (_needs_sorting self) eqn:En; simpl.
    - repeat split; try done.
      + by rewrite sorted_pairs_Permutation.
      + by apply sorted_pairs_sorted.
      + by rewrite sorted_pairs_Permutation.
      + by rewrite sorted_pairs_Permutation.
    - repeat split; try done. by apply Hs. }
  assert ((_simfn self k, k) ∈ _list self2) as Hx.
  { apply Hin, (wf_entries _ Hwf). eauto. }
  apply list_elem_of_split in Hx as (l1 & l2 & Hl).
  rewrite Hf, Hl. rewrite bisect_left_elem by by rewrite <-Hl.
  rewrite decide_True by (rewrite length_app; simpl; lia).
  eexists. split; [done|]. rewrite delete_middle.
  rewrite Hl in Hnd, Hs, Hin.
  apply NoDup_app in Hnd as (Hnd1 & Hnd12 & [Hx2 Hnd2]%NoDup_cons).
  split; [split; simpl|by simpl; rewrite Hd].
  - apply NoDup_app. set_solver.
  - intros sk rk. rewrite Hd. destruct (decide (rk = k)) as [->|Hne].
    + rewrite lookup_delete_eq. split; [|by intros [[? ?] _]].
      intros Hin'. assert ((sk, k) ∈ l1 ++ (_simfn self k, k) :: l2) as Hin2
        by set_solver.
      apply Hin, (wf_entries _ Hwf) in Hin2 as [_ ->]. set_solver.
    + rewrite lookup_delete_ne by done. rewrite <-(wf_entries _ Hwf), <-Hin.
      set_solver.
  - intros _. apply StronglySorted_app in Hs as (H12 & Hs1 & Hs2).
    apply StronglySorted_cons in Hs2 as [_ Hs2].
    apply StronglySorted_app. set_solver.
Qed.

Lemma delitem_absent self k :
  dict self !! k = None → __delitem__ self k = Normal tt self.
Proof. intros Hk. unfold __delitem__. by rewrite Hk. Qed.

(** No operation raises on a well-formed object, and each keeps it so. *)
Lemma wf_apply self (o : op K V) :
  wf self →
  ∃ self', apply self o = Normal tt self' ∧ wf self' ∧
           _simfn self' = _simfn self.
Proof.
  intros Hwf. destruct o as [k v|k]; simpl.
  - eexists. split; [done|]. split; [by apply (wf_setitem self k v)|].
    unfold __setitem__. by destruct (dict self !! k).
  - destruct (dict self !! k) as [v0|] eqn:Ek.
    + destruct (delitem_present self k v0 Hwf Ek) as (self' & ? & ? & _ & ?).
      eauto.
    + rewrite delitem_absent by done. eauto.
Qed.

Lemma wf_run_from self (ops : list (op K V)) :
  wf self →
  wf (run_from self ops) ∧ _simfn (run_from self ops) = _simfn self.
Proof.
  revert self. induction ops as [|o ops IH]; intros self Hwf; [done|].
  unfold run_from. simpl.
  destruct (wf_apply self o Hwf) as (self' & -> & Hwf' & Hf). simpl.
  destruct (IH self' Hwf') as [? Hf']. split; [done|]. by rewrite <-Hf.
Qed.

Lemma wf_run simfn (ops : list (op K V)) :
  wf (run simfn ops) ∧ _simfn (run simfn ops) = simfn.
Proof. apply (wf_run_from (__init__ simfn)), wf_init. Qed.

(** No operation raises after a run from the empty dictionary. *)
Lemma run_never_raises simfn (ops : list (op K V)) (o : op K V) :
  raises (apply (run simfn ops) o) = false.
Proof.
  destruct (wf_run simfn ops) as [Hwf _].
  by destruct (wf_apply _ o Hwf) as (self' & -> & _).
Qed.

(** The scan of [filter_keys] under [operator.eq] and without a count, on a
    sorted stretch that starts at or after the similarity key. *)
Lemma filter_keys_loop_eq simkey (rest : list (S * K)) keys rk :
  StronglySorted pair_lt rest →
  Forall (λ e, tuple2_lt_tuple1 e simkey = false) rest →
  rk ∈ filter_keys_loop (Some operator_eq) simkey None rest keys
  ↔ rk ∈ keys ∨ (simkey, rk) ∈ rest.
Proof.
  intros Hs. revert keys.
  induction Hs as [|[sk rk'] rest Hs IH Hhd]; intros keys Hge; simpl.
  - rewrite elem_of_nil. tauto.
  - apply Forall_cons in Hge as [Hsk Hge]. unfold operator_eq.
    case_bool_decide as Heq; simpl.
    + subst sk. rewrite IH by done.
      rewrite elem_of_app, list_elem_of_singleton, elem_of_cons.
      split; [intros [[?| ->]|?]|intros [?|[[= ->]|?]]]; auto.
    + split; [auto|]. intros [?|[[= ? ?]|Hin]%elem_of_cons]; [done..|].
      rewrite Forall_forall in Hhd. specialize (Hhd _ Hin).
      unfold pair_lt, tuple2_lt in Hhd. unfold tuple2_lt_tuple1 in Hsk.
      simpl in *. rewrite decide_False in Hhd, Hsk by done. congruence.
Qed.

(** Where [_index_left] points in a sorted list: strictly smaller
    similarity keys before, none after. *)
Lemma index_left_sorted simkey (l : list (S * K)) :
  StronglySorted pair_lt l →
  let idx := bisect_left (λ e, tuple2_lt_tuple1 e simkey) l in
  Forall (λ e, tuple2_lt_tuple1 e simkey = true) (take idx l) ∧
  Forall (λ e, tuple2_lt_tuple1 e simkey = false) (drop idx l).
Proof.
  intros Hs.
  destruct (sorted_split_at pair_lt (λ e, tuple2_lt_tuple1 e simkey) l)
    as (n & Hn & Hsplit); [|done|].
  - intros [x1 x2] [y1 y2]. unfold pair_lt, tuple2_lt, tuple2_lt_tuple1.
    simpl. intros Hxy Hy.
    destruct (decide (y1 = simkey)) as [|Hy1]; [done|].
    destruct (decide (x1 = y1)) as [->|Hx1]; [by rewrite decide_False|].
    destruct (decide (x1 = simkey)) as [->|]; [|by eapply lt_trans].
    by rewrite (lt_asym _ _ Hxy) in Hy.
  - simpl. by rewrite (bisect_left_split _ _ n Hsplit Hn).
Qed.

Lemma get_similar_keys_wf self k :
  wf self →
  ∃ keys self',
    get_similar_keys self k None = Normal keys self' ∧
    wf self' ∧ dict self' = dict self ∧ _simfn self' = _simfn self ∧
    ∀ rk, rk ∈ keys ↔
          is_Some (dict self !! rk) ∧ _simfn self rk = _simfn self k.
Proof.
  intros Hwf. unfold get_similar_keys, filter_keys, _index_left.
  set (self1 := if _needs_sorting self then sort self else self).
  assert (wf self1 ∧ _needs_sorting self1 = false ∧ dict self1 = dict self ∧
          _simfn self1 = _simfn self) as (Hwf1 & Hn & Hd & Hf).
  { subst self1. destruct (_needs_sorting self) eqn:En; [|done].
    split; [by apply wf_sort|done]. }
  rewrite Hf. eexists _, _. split; [done|].
  split; [exact Hwf1|]. split; [done|]. split; [done|]. intros rk. split.
  - intros Hin. pose proof (wf_sorted _ Hwf1 Hn) as Hs.
    destruct (index_left_sorted (_simfn self k) _ Hs) as [_ Hge].
    apply filter_keys_loop_eq in Hin as [Hin|Hin];
      [by apply elem_of_nil in Hin| |by apply StronglySorted_drop|done].
    apply elem_of_drop_1, (wf_entries _ Hwf1) in Hin as [Hin Heq].
    rewrite Hd in Hin. rewrite Hf in Heq. split; [done|congruence].
  - intros [Hin Heq]. pose proof (wf_sorted _ Hwf1 Hn) as Hs.
    destruct (index_left_sorted (_simfn self k) _ Hs) as [Hlt Hge].
    apply filter_keys_loop_eq; [by apply StronglySorted_drop|done|]. right.
    assert ((_simfn self k, rk) ∈ _list self1) as Hl.
    { apply (wf_entries _ Hwf1). by rewrite Hd, Hf. }
    apply (elem_of_take_drop _
      (bisect_left (λ e, tuple2_lt_tuple1 e (_simfn self k)) (_list self1)))
      in Hl as [Hl|Hl]; [|done].
    rewrite Forall_forall in Hlt. specialize (Hlt _ Hl).
    unfold tuple2_lt_tuple1 in Hlt. simpl in Hlt.
    by rewrite decide_True in Hlt.
Qed.

(** C6: after any run of [__setitem__] and [__delitem__] from the empty
    dictionary, [get_similar_keys] without a count returns normally, for
    every key [k], exactly the keys now in the dictionary that the
    similarity function sends where it sends [k]. *)
Theorem get_similar_keys_exact (simfn : K → S) (ops : list (op K V)) k :
  ∃ keys self',
    get_similar_keys (run simfn ops) k None = Normal keys self' ∧
    dict self' = dict (run simfn ops) ∧
    ∀ rk, rk ∈ keys ↔
          is_Some (dict (run simfn ops) !! rk) ∧ simfn rk = simfn k.
Proof.
  destruct (wf_run simfn ops) as [Hwf Hf].
  destruct (get_similar_keys_wf _ k Hwf) as (keys & self' & ? & _ & ? & _ & Hk).
  rewrite Hf in Hk. eauto.
Qed.

(** C10: [__delitem__] of a key that is not in the dictionary returns
    normally and leaves the whole object, the mapping and the list, as it
    was. *)
Theorem delitem_absent_noop self k :
  dict self !! k = None → __delitem__ self k = Normal tt self.
Proof. apply delitem_absent. Qed.

End facts.

#[export] Instance nat_TotalLt : TotalLt nat.
Proof.
  split; unfold lt, nat_Lt.
  - intros a. apply Nat.ltb_irrefl.
  - intros a b c. rewrite !Nat.ltb_lt. lia.
  - intros a b. rewrite !Nat.ltb_lt. lia.
Qed.

Example sample_run_list :
  _list (sort (run tens sample_ops))
  = [(1, 10); (1, 12); (1, 17); (2, 25)]%nat.
Proof. vm_compute. reflexivity. Qed.

Example sample_similar_keys :
  ∃ self', get_similar_keys (run tens sample_ops) 15%nat None
           = Normal [10; 12; 17]%nat self'.
Proof. eexists. vm_compute. reflexivity. Qed.

(** The count is looked at after a key went in: with the count 0 the
    search returns one key when it has one to return. *)
Example filter_keys_count_zero :
  ∃ self', get_similar_keys (run tens sample_ops) 15%nat (Some 0%Z)
           = Normal [10]%nat self'.
Proof. eexists. vm_compute. reflexivity. Qed.

(** C6 on the sample run, for the keys similar to 15. *)
Lemma get_similar_keys_exact_witness :
  ∃ keys self',
    get_similar_keys (run tens sample_ops) 15%nat None = Normal keys self' ∧
    dict self' = dict (run tens sample_ops) ∧
    ∀ rk, rk ∈ keys ↔
          is_Some (dict (run tens sample_ops) !! rk) ∧ tens rk = tens 15%nat.
Proof. apply (get_similar_keys_exact tens sample_ops 15%nat). Defined.

(** C10 on the sample run: 40 is not a key of it. *)
Lemma delitem_absent_noop_witness :
  __delitem__ (run tens sample_ops) 40%nat
  = Normal tt (run tens sample_ops).
Proof. apply delitem_absent_noop. vm_compute. reflexivity. Defined.

End SimilarSearchDict_facts.

(** *** A single dictionary *)
Module StenoDictionary_facts.
Import Py StenoDictionary StenoDictionary_spec.

Section facts.
Context {K V : Type} `{Countable K} `{Countable V}.

Implicit Types (self : t K V) (rev : ReverseStenoDict.t K V).
Implicit Types (k key : K) (v value : V).

Lemma keys_at_append_key rev value key v :
  keys_at (ReverseStenoDict.append_key rev value key) v
  = if decide (v = value) then {[key]} ∪ keys_at rev value else keys_at rev v.
Proof.
  unfold keys_at, ReverseStenoDict.append_key. simpl.
  case_decide as Hv; [subst v; by rewrite lookup_insert_eq|].
  by rewrite lookup_insert_ne.
Qed.

Lemma keys_at_remove_key rev value key v :
  keys_at (ReverseStenoDict.remove_key rev value key) v
  = if decide (v = value) then keys_at rev value ∖ {[key]} else keys_at rev v.
Proof.
  unfold keys_at, ReverseStenoDict.remove_key.
  destruct (ReverseStenoDict.index rev !! value) as [keys|] eqn:E; simpl.
  - destruct (decide (v = value)) as [->|Hv].
    + destruct (decide (keys ∖ {[key]} = ∅)) as [He|He].
      * by rewrite lookup_delete_eq, He.
      * by rewrite lookup_insert_eq.
    + destruct (decide (keys ∖ {[key]} = ∅));
        [by rewrite lookup_delete_ne|by rewrite lookup_insert_ne].
  - destruct (decide (v = value)) as [->|Hv]; [|done].
    rewrite E. simpl. set_solver.
Qed.

Lemma keys_of_spec (forward : gmap K V) v k :
  k ∈ keys_of forward v ↔ forward !! k = Some v.
Proof.
  unfold keys_of. rewrite elem_of_dom. split.
  - intros [v' [Hk Hv]%map_lookup_filter_Some]. simpl in Hv. by subst.
  - intros Hk. exists v. by apply map_lookup_filter_Some.
Qed.

Lemma reverse_lookup_keys_at self v :
  reverse_lookup self v = keys_at (reverse self) v.
Proof.
  unfold reverse_lookup, keys_at, ReverseStenoDict.get.
  by destruct (ReverseStenoDict.index (reverse self) !! v).
Qed.

Lemma no_stale_append_key rev value key :
  (∀ v, ReverseStenoDict.index rev !! v ≠ Some ∅) →
  ∀ v, ReverseStenoDict.index (ReverseStenoDict.append_key rev value key) !! v
       ≠ Some ∅.
Proof.
  intros Hrev v. unfold ReverseStenoDict.append_key. simpl.
  destruct (decide (v = value)) as [->|Hv].
  - rewrite lookup_insert_eq. intros [= He]. set_solver.
  - by rewrite lookup_insert_ne.
Qed.

Lemma no_stale_remove_key rev value key :
  (∀ v, ReverseStenoDict.index rev !! v ≠ Some ∅) →
  ∀ v, ReverseStenoDict.index (ReverseStenoDict.remove_key rev value key) !! v
       ≠ Some ∅.
Proof.
  intros Hrev v. unfold ReverseStenoDict.remove_key.
  destruct (ReverseStenoDict.index rev !! value) as [keys|] eqn:E; [|done].
  simpl. case_decide as He.
  - destruct (decide (v = value)) as [->|Hv].
    + by rewrite lookup_delete_eq.
    + by rewrite lookup_delete_ne.
  - destruct (decide (v = value)) as [->|Hv].
    + rewrite lookup_insert_eq. congruence.
    + by rewrite lookup_insert_ne.
Qed.

Lemma inverse_init : wf (__init__ (K:=K) (V:=V)).
Proof.
  split; simpl.
  - intros v k. unfold keys_at. simpl. rewrite !lookup_empty. simpl.
    set_solver.
  - intros v. by rewrite lookup_empty.
Qed.

Lemma inverse_setitem self key value :
  wf self → wf (state_of (__setitem__ self key value)).
Proof.
  intros [Hk Hs]. unfold __setitem__. destruct (readonly self); [done|].
  split; simpl.
  - intros v k. rewrite keys_at_append_key.
    destruct (dict self !! key) as [old|] eqn:Eold.
    + rewrite !keys_at_remove_key.
      destruct (decide (k = key)) as [->|Hne].
      * rewrite lookup_insert_eq. pose proof (Hk v key) as Hv.
        repeat case_decide; set_solver.
      * rewrite lookup_insert_ne by done.
        pose proof (Hk v k) as Hv. pose proof (Hk value k) as Hv'.
        repeat case_decide; set_solver.
    + destruct (decide (k = key)) as [->|Hne].
      * rewrite lookup_insert_eq. pose proof (Hk v key) as Hv.
        case_decide; set_solver.
      * rewrite lookup_insert_ne by done.
        pose proof (Hk v k) as Hv. pose proof (Hk value k) as Hv'.
        case_decide; set_solver.
  - apply no_stale_append_key.
    destruct (dict self !! key); [by apply no_stale_remove_key|done].
Qed.

Lemma inverse_delitem self key :
  wf self → wf (state_of (__delitem__ self key)).
Proof.
  intros [Hk Hs]. unfold __delitem__. destruct (readonly self); [done|].
  destruct (dict self !! key) as [value|] eqn:E; [|done].
  split; simpl.
  - intros v k. rewrite keys_at_remove_key.
    destruct (decide (k = key)) as [->|Hne].
    + rewrite lookup_delete_eq. pose proof (Hk v key) as Hv.
      case_decide; set_solver.
    + rewrite lookup_delete_ne by done.
      pose proof (Hk v k) as Hv. pose proof (Hk value k) as Hv'.
      case_decide; set_solver.
  - by apply no_stale_remove_key.
Qed.

Lemma inverse_run_from self (ops : list (op K V)) :
  wf self → wf (run_from self ops).
Proof.
  revert self. induction ops as [|o ops IH]; intros self Hwf; [done|].
  unfold run_from. simpl. apply IH.
  destruct o; [by apply inverse_setitem|by apply inverse_delitem].
Qed.

(** A run of [__setitem__] alone on a writable dictionary is a run of
    insertions into the forward mapping. *)
Lemma run_from_setitems self (a : list (K * V)) :
  readonly self = false →
  let d := run_from self ((λ kv, SetItem kv.1 kv.2) <$> a) in
  dict d = foldl (λ (m : gmap K V) kv, <[kv.1 := kv.2]> m) (dict self) a ∧
  readonly d = false ∧ enabled d = enabled self.
Proof.
  revert self. induction a as [|[k v] a IH]; intros self Hro; [done|].
  change (run_from self ((λ kv, SetItem kv.1 kv.2) <$> (k, v) :: a))
    with (run_from (state_of (__setitem__ self k v))
            ((λ kv, SetItem kv.1 kv.2) <$> a)).
  set (self' := state_of (__setitem__ self k v)).
  assert (dict self' = <[k:=v]> (dict self) ∧ readonly self' = false ∧
          enabled self' = enabled self) as (Hd & Hr & He).
  { subst self'. unfold __setitem__. by rewrite Hro. }
  destruct (IH self' Hr) as (Hd' & Hr' & He'). cbv zeta.
  rewrite Hd', Hd, He'. done.
Qed.

Lemma inverse_clear self : wf (state_of (clear self)).
Proof.
  split; simpl.
  - intros v k. unfold keys_at. simpl. rewrite !lookup_empty. simpl.
    set_solver.
  - intros v. by rewrite lookup_empty.
Qed.

(** The fast path of [update]: the index rebuilt from a forward mapping is
    its inverse. *)
Lemma inverse_match_forward rev (forward : gmap K V) :
  inverse_of forward (ReverseStenoDict.match_forward rev forward).
Proof.
  unfold ReverseStenoDict.match_forward.
  apply (map_fold_weak_ind (λ r (m : gmap K V), inverse_of m r)).
  - split.
    + intros v k. unfold keys_at. simpl. rewrite !lookup_empty. simpl.
      set_solver.
    + intros v. simpl. by rewrite lookup_empty.
  - intros key value m r Hm [Hk Hs]. split.
    + intros v k. rewrite keys_at_append_key.
      destruct (decide (k = key)) as [->|Hne].
      * rewrite lookup_insert_eq. pose proof (Hk v key) as Hv.
        case_decide; set_solver.
      * rewrite lookup_insert_ne by done.
        pose proof (Hk v k) as Hv. pose proof (Hk value k) as Hv'.
        case_decide; set_solver.
    + by apply no_stale_append_key.
Qed.

Lemma inverse_update_loop self (items : list (K * V)) :
  wf self → wf (state_of (update_loop self items)).
Proof.
  revert self. induction items as [|[k v] items IH]; intros self Hwf; [done|].
  simpl. pose proof (inverse_setitem self k v Hwf) as Hwf'.
  destruct (__setitem__ self k v); simpl in *; [by apply IH|done].
Qed.

(** [update] keeps the reverse index exact on both of its paths. *)
Lemma inverse_update self (pairs : list (K * V)) :
  wf self → wf (state_of (update self pairs)).
Proof.
  intros Hwf. unfold update. destruct (readonly self); [done|].
  case_decide; [apply inverse_match_forward|by apply inverse_update_loop].
Qed.

Lemma inverse_reverse_exact self : wf self → reverse_exact self.
Proof.
  intros [Hk _] v k. rewrite reverse_lookup_keys_at. apply Hk.
Qed.

(** C1: after any run of [__setitem__] and [__delitem__] from the empty
    dictionary, the reverse index gives for every value [v] exactly the
    keys that the forward mapping sends to [v], and it holds no translation
    that no key produces. *)
Theorem reverse_index_exact (ops : list (op K V)) :
  (∀ v, reverse_lookup (run ops) v = keys_of (dict (run ops)) v) ∧
  (∀ v, is_Some (ReverseStenoDict.get (reverse (run ops)) v) →
        ∃ k, dict (run ops) !! k = Some v).
Proof.
  pose proof (inverse_run_from __init__ ops inverse_init) as Hwf. fold (run ops) in Hwf.
  split.
  - intros v. apply set_eq. intros k. rewrite keys_of_spec.
    by apply inverse_reverse_exact.
  - intros v [keys Hv]. destruct Hwf as [Hk Hs].
    unfold ReverseStenoDict.get in Hv.
    destruct (set_choose_or_empty keys) as [[k Hin]|He].
    + exists k. apply Hk. unfold keys_at. by rewrite Hv.
    + apply leibniz_equiv in He. subst keys. by destruct (Hs v).
Qed.

(** The three mutators that assert: on a read-only dictionary each raises
    at once and leaves the object as it was. *)
Lemma readonly_rejects self key value (pairs : list (K * V)) :
  readonly self = true →
  __setitem__ self key value = Raised AssertionError self ∧
  __delitem__ self key = Raised AssertionError self ∧
  update self pairs = Raised AssertionError self.
Proof. intros Hro. unfold __setitem__, __delitem__, update. by rewrite Hro. Qed.

(** [clear] asserts nothing: it empties every dictionary, read-only or
    not. *)
Lemma clear_any self :
  ∃ self', clear self = Normal tt self' ∧ dict self' = ∅ ∧
           (∀ v, reverse_lookup self' v = ∅) ∧
           readonly self' = readonly self.
Proof. eexists. split; [done|]. by repeat split. Qed.

End facts.

(** C8, on the code: the dictionary with the one entry K1 → "cat", made
    read-only as [load] does. [clear] returns normally on it, and the entry
    and its reverse entry are gone. *)
Theorem clear_ignores_readonly :
  let d : t (list string) string :=
    set_readonly true (run [SetItem K1 "cat"%string]) in
  readonly d = true ∧
  dict d !! K1 = Some "cat"%string ∧
  reverse_lookup d "cat"%string = {[K1]} ∧
  ∃ d', clear d = Normal tt d' ∧
        dict d' !! K1 = None ∧ reverse_lookup d' "cat"%string = ∅.
Proof.
  cbv zeta. split; [done|]. split; [by vm_compute|].
  split; [by vm_compute|]. eexists. split; [done|]. by vm_compute.
Qed.

End StenoDictionary_facts.

(** *** The stand-ins for [pop], [popitem] and [setdefault] *)
Module stubs_facts.
Import Py.

(** C9, on the code: on both classes [setdefault], [pop] and [popitem]
    return, normally, the class [NotImplementedError] as their value; none
    raises, and none touches the object. *)
Theorem stubs_return_the_exception_class
    {K S V : Type} `{Countable K} `{Countable V}
    (ssd : SimilarSearchDict.t K S V) (sd : StenoDictionary.t K V)
    (k : K) (default : option V) :
  SimilarSearchDict.setdefault ssd k default = Normal NotImplementedError ssd ∧
  SimilarSearchDict.pop ssd k = Normal NotImplementedError ssd ∧
  SimilarSearchDict.popitem ssd = Normal NotImplementedError ssd ∧
  StenoDictionary.setdefault sd k default = Normal NotImplementedError sd ∧
  StenoDictionary.pop sd k = Normal NotImplementedError sd ∧
  StenoDictionary.popitem sd = Normal NotImplementedError sd.
Proof. by repeat split. Qed.

End stubs_facts.

(** *** The collection *)
Module StenoDictionaryCollection_facts.
Import Py StenoDictionary_spec StenoDictionaryCollection.
Import StenoDictionaryCollection_spec.

Section facts.
Context {K V : Type} `{Countable K} `{Countable V}.
Context `{Lt V} `{Lower V} `{Is V} `{!ReverseStenoDict.Search K V}.

Implicit Types (self : t K V) (d : StenoDictionary.t K V).
Implicit Types (k key : K) (v value : V).

(** C5: when [d] is the first enabled member that has [key], and some
    filter is true of [key] and the value [d] gives it, [lookup] returns
    [None], whatever members come after [d] and whatever they hold. *)
Theorem lookup_filtered_masks self key value
    (higher lower : list (StenoDictionary.t K V)) d :
  dicts self = higher ++ d :: lower →
  Forall (λ d', ¬ (StenoDictionary.enabled d' = true ∧
                   is_Some (StenoDictionary.dict d' !! key))) higher →
  StenoDictionary.enabled d = true →
  StenoDictionary.dict d !! key = Some value →
  (∃ f, f ∈ filters self ∧ f key value = true) →
  lookup self key = None.
Proof.
  intros Hd Hhigher Hen Hkey (f & Hf & Hfv). unfold lookup. rewrite Hd.
  clear Hd. induction Hhigher as [|d' higher Hd' _ IH]; simpl.
  - rewrite Hen, Hkey.
    assert (existsb (λ f, f key value) (filters self) = true) as ->; [|done].
    apply existsb_exists. exists f. by rewrite <-list_elem_of_In.
  - destruct (StenoDictionary.enabled d') eqn:En; [|done].
    destruct (StenoDictionary.dict d' !! key) eqn:Ek; [|done].
    destruct Hd'. eauto.
Qed.

(** Without a filter that is true of the pair, the same member answers. *)
Lemma lookup_unfiltered self key value
    (higher lower : list (StenoDictionary.t K V)) d :
  dicts self = higher ++ d :: lower →
  Forall (λ d', ¬ (StenoDictionary.enabled d' = true ∧
                   is_Some (StenoDictionary.dict d' !! key))) higher →
  StenoDictionary.enabled d = true →
  StenoDictionary.dict d !! key = Some value →
  Forall (λ f, f key value = false) (filters self) →
  lookup self key = Some value.
Proof.
  intros Hd Hhigher Hen Hkey Hf. unfold lookup. rewrite Hd.
  clear Hd. induction Hhigher as [|d' higher Hd' _ IH]; simpl.
  - rewrite Hen, Hkey.
    assert (existsb (λ f, f key value) (filters self) = false) as ->; [|done].
    induction Hf as [|f fs Hfv _ IHf]; simpl; [done|]. by rewrite Hfv.
  - destruct (StenoDictionary.enabled d') eqn:En; [|done].
    destruct (StenoDictionary.dict d' !! key) eqn:Ek; [|done].
    destruct Hd'. eauto.
Qed.

Lemma reverse_lookup_step_elem value keys d k :
  reverse_exact d →
  k ∈ reverse_lookup_step value keys d
  ↔ if StenoDictionary.enabled d
    then StenoDictionary.dict d !! k = Some value ∨
         (StenoDictionary.dict d !! k = None ∧ k ∈ keys)
    else k ∈ keys.
Proof.
  intros Hd. unfold reverse_lookup_step.
  destruct (StenoDictionary.enabled d); [|done].
  rewrite elem_of_union, (Hd value k). case_decide as He.
  - rewrite elem_of_difference, elem_of_filter.
    rewrite (eq_None_not_Some (StenoDictionary.dict d !! k)). tauto.
  - subst keys. rewrite elem_of_empty. tauto.
Qed.

Lemma reverse_lookup_cons d ds fs value :
  reverse_lookup {| dicts := d :: ds; filters := fs |} value
  = reverse_lookup_step value
      (reverse_lookup {| dicts := ds; filters := fs |} value) d.
Proof. unfold reverse_lookup. simpl. by rewrite reverse_cons, foldl_app. Qed.

Lemma reverse_lookup_visible self value k :
  Forall reverse_exact (dicts self) →
  k ∈ reverse_lookup self value
  ↔ ∃ i d, dicts self !! i = Some d ∧
           StenoDictionary.enabled d = true ∧
           StenoDictionary.dict d !! k = Some value ∧
           ∀ j d', (j < i)%nat → dicts self !! j = Some d' →
                   StenoDictionary.enabled d' = true →
                   StenoDictionary.dict d' !! k = None.
Proof.
  destruct self as [ds fs]. simpl.
  induction ds as [|d ds IH]; intros Hex.
  - unfold reverse_lookup. simpl. rewrite elem_of_empty.
    split; [done|]. by intros (i & d & Hi & _).
  - apply Forall_cons in Hex as [Hd Hex]. specialize (IH Hex).
    rewrite reverse_lookup_cons, (reverse_lookup_step_elem _ _ _ _ Hd).
    assert (k ∈ reverse_lookup {| dicts := ds; filters := fs |} value
            → ∃ i d, (d :: ds) !! S i = Some d ∧
                StenoDictionary.enabled d = true ∧
                StenoDictionary.dict d !! k = Some value ∧
                ∀ j d', (j < i)%nat → ds !! j = Some d' →
                        StenoDictionary.enabled d' = true →
                        StenoDictionary.dict d' !! k = None) as Hup.
    { intros (i & d' & Hi & Hen & Hv & Hlo)%IH. by exists i, d'. }
    split.
    + destruct (StenoDictionary.enabled d) eqn:En.
      * intros [Hv|[Hn (i & d' & Hi & Hen & Hv & Hlo)%Hup]].
        -- exists 0%nat, d. repeat split; try done. intros j ? ?. lia.
        -- exists (S i), d'. repeat split; try done.
           intros [|j] d'' Hj Hj' Hen'; simpl in Hj'; [by simplify_eq|].
           apply (Hlo j d''); [lia|done..].
      * intros (i & d' & Hi & Hen & Hv & Hlo)%Hup.
        exists (S i), d'. repeat split; try done.
        intros [|j] d'' Hj Hj' Hen'; simpl in Hj'; [simplify_eq; congruence|].
        apply (Hlo j d''); [lia|done..].
    + clear Hup. intros ([|i] & d' & Hi & Hen & Hv & Hlo); simpl in Hi.
      * simplify_eq. rewrite Hen. by left.
      * assert (∃ i d, ds !! i = Some d ∧ StenoDictionary.enabled d = true ∧
                  StenoDictionary.dict d !! k = Some value ∧
                  ∀ j d', (j < i)%nat → ds !! j = Some d' →
                          StenoDictionary.enabled d' = true →
                          StenoDictionary.dict d' !! k = None) as Hds.
        { exists i, d'. repeat split; try done. intros j d'' Hj Hj' Hen'.
          apply (Hlo (S j) d''); [lia|done..]. }
        apply IH in Hds.
        destruct (StenoDictionary.enabled d) eqn:En; [|done].
        right. split; [|done]. apply (Hlo 0%nat d); [lia|done..].
Qed.

(** C2: with members whose own reverse lookup is exact, [reverse_lookup]
    of the collection returns exactly the keys [k] that some enabled member
    sends to the value while no enabled member before it in [dicts] has [k]
    as a key at all. *)
Theorem reverse_lookup_precedence self value k :
  Forall reverse_exact (dicts self) →
  k ∈ reverse_lookup self value
  ↔ ∃ i d, dicts self !! i = Some d ∧
           StenoDictionary.enabled d = true ∧
           StenoDictionary.dict d !! k = Some value ∧
           ∀ j d', (j < i)%nat → dicts self !! j = Some d' →
                   StenoDictionary.enabled d' = true →
                   StenoDictionary.dict d' !! k = None.
Proof. apply reverse_lookup_visible. Qed.

(** Every pair that [_multi_reverse_lookup] returns has a key. *)
Lemma multi_reverse_lookup_loop_keys self max_count values old_v results :
  Forall (λ r, r.2 ≠ ∅) results →
  Forall (λ r, r.2 ≠ ∅)
    (_multi_reverse_lookup_loop self max_count values old_v results).
Proof.
  revert old_v results.
  induction values as [|v values IH]; intros old_v results Hres; simpl;
    [done|].
  destruct (match old_v with Some o => negb (py_is v o) | None => true end);
    [|by apply IH].
  case_decide as Hk; [|by apply IH].
  assert (Forall (λ r : V * gset K, r.2 ≠ ∅)
            (results ++ [(v, reverse_lookup self v)])) as Hres'.
  { apply Forall_app. split; [done|]. by constructor. }
  destruct (count_reached _ _); [done|by apply IH].
Qed.

(** With a count [c] the loop stops at [c] pairs when it can: it returns
    no more than [c] pairs, or one pair if [c] is below one. *)
Lemma multi_reverse_lookup_loop_length self (c : Z) values old_v results :
  (Z.of_nat (length results) < Z.max c 1)%Z →
  (Z.of_nat (length (_multi_reverse_lookup_loop self (Some c) values old_v
                       results)) ≤ Z.max c 1)%Z.
Proof.
  revert old_v results.
  induction values as [|v values IH]; intros old_v results Hres; simpl;
    [lia|].
  destruct (match old_v with Some o => negb (py_is v o) | None => true end);
    [|by apply IH].
  case_decide as Hk; [|by apply IH].
  case_bool_decide as Hc.
  - rewrite length_app. simpl. lia.
  - apply IH. rewrite length_app in *. simpl in *. lia.
Qed.

Lemma multi_reverse_lookup_keys self values max_count :
  Forall (λ r, r.2 ≠ ∅) (_multi_reverse_lookup self values max_count).
Proof. by apply multi_reverse_lookup_loop_keys. Qed.

Lemma multi_reverse_lookup_length self values (c : Z) :
  (1 ≤ c)%Z →
  (Z.of_nat (length (_multi_reverse_lookup self values (Some c))) ≤ c)%Z.
Proof.
  intros Hc.
  pose proof (multi_reverse_lookup_loop_length self c
    (sorted (λ a b, lt (str_lower a) (str_lower b)) values) None []) as Hl.
  unfold _multi_reverse_lookup. simpl in Hl. lia.
Qed.

(** What of C7 holds whatever the searches of the members return: the
    three [find_] methods return no pair without a key, and with a count
    of at least one no more pairs than the count. *)
Lemma find_keys_and_count self value pattern (c : Z) :
  Forall (λ r, r.2 ≠ ∅) (find_similar self value) ∧
  (∀ count, Forall (λ r, r.2 ≠ ∅) (find_partial self pattern count)) ∧
  (∀ count, Forall (λ r, r.2 ≠ ∅) (find_regex self pattern count)) ∧
  ((1 ≤ c)%Z →
   (Z.of_nat (length (find_partial self pattern (Some c))) ≤ c)%Z ∧
   (Z.of_nat (length (find_regex self pattern (Some c))) ≤ c)%Z).
Proof.
  unfold find_similar, find_partial, find_regex.
  repeat split; intros;
    auto using multi_reverse_lookup_keys, multi_reverse_lookup_length.
Qed.

End facts.

Lemma two_members_exact {K V : Type} `{Countable K} `{Countable V}
    (a b : list (K * V)) :
  Forall reverse_exact (dicts (two_members a b)).
Proof.
  repeat constructor;
    apply StenoDictionary_facts.inverse_reverse_exact,
          StenoDictionary_facts.inverse_run_from, StenoDictionary_facts.inverse_init.
Qed.

(** The reverse lookup of a collection of two enabled members. *)
Lemma two_members_elem {K V : Type} `{Countable K} `{Countable V}
    (a b : list (K * V)) value k :
  let da := foldl (λ (m : gmap K V) kv, <[kv.1 := kv.2]> m) ∅ a in
  let db := foldl (λ (m : gmap K V) kv, <[kv.1 := kv.2]> m) ∅ b in
  k ∈ reverse_lookup (two_members a b) value
  ↔ da !! k = Some value ∨ (da !! k = None ∧ db !! k = Some value).
Proof.
  intros da db.
  destruct (StenoDictionary_facts.run_from_setitems
              StenoDictionary.__init__ a eq_refl) as (Ha & _ & Hae).
  destruct (StenoDictionary_facts.run_from_setitems
              StenoDictionary.__init__ b eq_refl) as (Hb & _ & Hbe).
  pose proof (two_members_exact a b) as Hex.
  apply Forall_cons in Hex as [Hexa Hex].
  apply Forall_cons in Hex as [Hexb _].
  unfold two_members, __init__.
  rewrite !reverse_lookup_cons.
  rewrite (reverse_lookup_step_elem _ _ _ _ Hexa). unfold run. rewrite Hae.
  cbn [StenoDictionary.enabled StenoDictionary.__init__].
  rewrite (reverse_lookup_step_elem _ _ _ _ Hexb). unfold run. rewrite Hbe.
  cbn [StenoDictionary.enabled StenoDictionary.__init__].
  rewrite Ha, Hb. cbn [StenoDictionary.dict StenoDictionary.__init__].
  fold da db. unfold reverse_lookup. simpl. rewrite elem_of_empty. tauto.
Qed.

(** C2 on the members A = {K1: "dog"} and B = {K1: "cat", K2: "cat"}, for
    the key K2 and the value "cat". *)
Lemma reverse_lookup_precedence_witness :
  let self := two_members [(K1, "dog"%string)]
                          [(K1, "cat"%string); (K2, "cat"%string)] in
  K2 ∈ reverse_lookup self "cat"%string
  ↔ ∃ i d, dicts self !! i = Some d ∧
           StenoDictionary.enabled d = true ∧
           StenoDictionary.dict d !! K2 = Some "cat"%string ∧
           ∀ j d', (j < i)%nat → dicts self !! j = Some d' →
                   StenoDictionary.enabled d' = true →
                   StenoDictionary.dict d' !! K2 = None.
Proof.
  apply (reverse_lookup_precedence
           (two_members [(K1, "dog"%string)]
                        [(K1, "cat"%string); (K2, "cat"%string)])).
  apply two_members_exact.
Defined.

(** C3, on the code: with A = {K1: "cat"} before B = {K1: "dog", K2: "cat"}
    the reverse lookup of "cat" is not {K2}: K1 is in it. *)
Lemma reverse_lookup_override_counterexample :
  reverse_lookup
    (two_members [(K1, "cat"%string)]
                 [(K1, "dog"%string); (K2, "cat"%string)]) "cat"%string
  ≠ {[K2]}.
Proof.
  intros Heq.
  assert (K1 ∈ ({[K2]} : gset (list string))) as Hin
    by (rewrite <-Heq; by vm_compute).
  by apply elem_of_singleton in Hin.
Qed.

(** C3, as amended: for two keys [k1 ≠ k2], with A = {k1: "cat"} before
    B = {k1: "dog", k2: "cat"} the reverse lookup of "cat" is {k1, k2}, [k1]
    through A and [k2] through B; it is {k2}, with [k1] left out, when the
    values of [k1] are the other way round, A = {k1: "dog"} before
    B = {k1: "cat", k2: "cat"}. *)
Theorem reverse_lookup_override {K : Type} `{Countable K} (k1 k2 : K) :
  k1 ≠ k2 →
  reverse_lookup
    (two_members [(k1, "cat"%string)]
                 [(k1, "dog"%string); (k2, "cat"%string)]) "cat"%string
  = {[k1; k2]} ∧
  reverse_lookup
    (two_members [(k1, "dog"%string)]
                 [(k1, "cat"%string); (k2, "cat"%string)]) "cat"%string
  = {[k2]}.
Proof.
  intros Hne. split; apply set_eq; intros k.
  - rewrite two_members_elem. simpl.
    rewrite elem_of_union, !elem_of_singleton.
    destruct (decide (k = k1)) as [Hk1|Hk1];
      destruct (decide (k = k2)) as [Hk2|Hk2];
      simplify_map_eq; naive_solver.
  - rewrite two_members_elem. simpl. rewrite elem_of_singleton.
    destruct (decide (k = k1)) as [Hk1|Hk1];
      destruct (decide (k = k2)) as [Hk2|Hk2];
      simplify_map_eq; naive_solver.
Qed.

(** The amended C3 at the keys "KAT" and "KAT/-S". *)
Lemma reverse_lookup_override_witness :
  reverse_lookup
    (two_members [(K1, "cat"%string)]
                 [(K1, "dog"%string); (K2, "cat"%string)]) "cat"%string
  = {[K1; K2]} ∧
  reverse_lookup
    (two_members [(K1, "dog"%string)]
                 [(K1, "cat"%string); (K2, "cat"%string)]) "cat"%string
  = {[K2]}.
Proof. apply (reverse_lookup_override K1 K2). vm_compute. discriminate. Defined.

(** The members and the filter of the witness of C5: the lower member
    alone answers "dog" for K1, which the filter lets through. *)
Example lookup_lower_member_alone :
  lookup (add_filter (__init__ [run [SetItem K1 "dog"%string]]) no_cat) K1
  = Some "dog"%string.
Proof. vm_compute. reflexivity. Qed.

(** C5 on A = {K1: "cat"} before B = {K1: "dog"}, with a filter that is
    true of "cat" only. *)
Lemma lookup_filtered_masks_witness :
  lookup (add_filter (two_members [(K1, "cat"%string)] [(K1, "dog"%string)])
            no_cat) K1
  = None.
Proof.
  apply (lookup_filtered_masks
           (add_filter (two_members [(K1, "cat"%string)]
                                    [(K1, "dog"%string)]) no_cat)
           K1 "cat"%string []
           [run [SetItem K1 "dog"%string]] (run [SetItem K1 "cat"%string])).
  - reflexivity.
  - constructor.
  - reflexivity.
  - vm_compute. reflexivity.
  - exists no_cat. split; [|reflexivity]. simpl. left.
Defined.

(** C7, on the code: with the count 0 [_multi_reverse_lookup] returns one
    pair, not none: the count is only looked at after a pair went in. *)
Theorem multi_reverse_lookup_count_zero :
  _multi_reverse_lookup (__init__ [run [SetItem K1 "cat"%string]])
    ["cat"%string] (Some 0%Z)
  = [("cat"%string, {[K1]})].
Proof. vm_compute. reflexivity. Qed.

End StenoDictionaryCollection_facts.

(** *** More on sorting, splitting and plain dicts *)
Module Py_more_facts.
Import Py Py_spec Py_facts.

Section sorted_weak.
Context {A : Type} (ltb : A → A → bool).
Hypothesis ltb_irrefl : ∀ a, ltb a a = false.
Hypothesis ltb_trans : ∀ a b c, ltb a b = true → ltb b c = true → ltb a c = true.

Lemma sorted_perm_aux (acc l : list A) :
  foldl (λ acc x, insort ltb x acc) acc l ≡ₚ acc ++ l.
Proof.
  revert acc. induction l as [|x l IH]; intros acc; simpl.
  - by rewrite app_nil_r.
  - rewrite IH, insort_Permutation. simpl. apply Permutation_middle.
Qed.

(** [sorted] gives back the elements it was given, whatever the
    comparison. *)
Lemma sorted_perm (l : list A) : sorted ltb l ≡ₚ l.
Proof. apply (sorted_perm_aux [] l). Qed.

Lemma insort_ge_sorted x l :
  StronglySorted (le_rel ltb) l →
  StronglySorted (le_rel ltb) (insort ltb x l).
Proof.
  intros Hl. induction Hl as [|y l Hl IH Hy]; simpl.
  - repeat constructor.
  - destruct (ltb x y) eqn:E.
    + constructor; [by constructor|]. constructor.
      * unfold le_rel. destruct (ltb y x) eqn:E'; [|done].
        by rewrite <-(ltb_irrefl x), (ltb_trans x y x).
      * eapply Forall_impl; [exact Hy|]. intros z Hz.
        unfold le_rel in *. destruct (ltb z x) eqn:E'; [|done].
        by rewrite (ltb_trans z x y) in Hz.
    + constructor; [done|]. rewrite insort_Permutation. by constructor.
Qed.

Lemma sorted_ge_aux (acc l : list A) :
  StronglySorted (le_rel ltb) acc →
  StronglySorted (le_rel ltb) (foldl (λ acc x, insort ltb x acc) acc l).
Proof.
  revert acc. induction l as [|x l IH]; intros acc Hacc; simpl; [done|].
  by apply IH, insort_ge_sorted.
Qed.

(** For a comparison that is irreflexive and transitive, [sorted] puts no
    element before one that is smaller. *)
Lemma sorted_ge (l : list A) :
  StronglySorted (le_rel ltb) (sorted ltb l).
Proof. apply sorted_ge_aux. constructor. Qed.

End sorted_weak.

Lemma StronglySorted_mono {A} (R1 R2 : relation A) (l : list A) :
  (∀ a b, R1 a b → R2 a b) → StronglySorted R1 l → StronglySorted R2 l.
Proof.
  intros HR Hl. induction Hl as [|x l Hl IH Hx]; constructor; [done|].
  eapply Forall_impl; [exact Hx|]. intros y. apply HR.
Qed.

Lemma StronglySorted_sublist {A} (R : relation A) (l1 l2 : list A) :
  l1 `sublist_of` l2 → StronglySorted R l2 → StronglySorted R l1.
Proof.
  induction 1 as [|x l1 l2 Hsub IH|x l1 l2 Hsub IH]; intros Hs; [done|..].
  - apply StronglySorted_cons in Hs as [Hx Hs].
    constructor; [by apply IH|].
    rewrite Forall_forall in Hx |- *. intros y Hy. apply Hx.
    by eapply elem_of_sublist.
  - apply StronglySorted_cons in Hs as [_ Hs]. by apply IH.
Qed.

Lemma string_ltb_irrefl (a : string) : String.ltb a a = false.
Proof.
  unfold String.ltb. destruct (String.compare a a) eqn:E; try done.
  apply OrderedTypeEx.String_as_OT.cmp_lt in E.
  by apply OrderedTypeEx.String_as_OT.lt_not_eq in E.
Qed.

Lemma string_ltb_trans (a b c : string) :
  String.ltb a b = true → String.ltb b c = true → String.ltb a c = true.
Proof.
  unfold String.ltb.
  destruct (String.compare a b) eqn:E1; try done.
  destruct (String.compare b c) eqn:E2; try done. intros _ _.
  apply OrderedTypeEx.String_as_OT.cmp_lt in E1, E2.
  pose proof (OrderedTypeEx.String_as_OT.lt_trans _ _ _ E1 E2) as E3.
  apply OrderedTypeEx.String_as_OT.cmp_lt in E3.
  unfold OrderedTypeEx.String_as_OT.cmp in E3. by rewrite E3.
Qed.

#[export] Instance Z_TotalLt : TotalLt Z.
Proof.
  split; unfold lt, Z_Lt.
  - intros a. apply Z.ltb_irrefl.
  - intros a b c. rewrite !Z.ltb_lt. lia.
  - intros a b. rewrite !Z.ltb_lt. lia.
Qed.

Lemma split_nonempty sep s : split sep s ≠ [].
Proof.
  destruct s as [|c s]; simpl; [done|].
  case_decide; [done|]. by destruct (split sep s).
Qed.

Lemma split_app sep a b :
  split sep (a ++ sep :: b) = split sep a ++ split sep b.
Proof.
  induction a as [|c a IH]; simpl.
  - by rewrite decide_True.
  - case_decide; [by rewrite IH|]. rewrite IH.
    pose proof (split_nonempty sep a). by destruct (split sep a).
Qed.

Lemma split_no_sep sep s : sep ∉ s → split sep s = [s].
Proof.
  induction s as [|c s IH]; intros Hs; simpl; [done|].
  apply not_elem_of_cons in Hs as [Hc Hs].
  rewrite decide_False by done. by rewrite IH.
Qed.

Lemma split_length sep s :
  length (split sep s) = S (length (filter (λ c, c = sep) s)).
Proof.
  induction s as [|c s IH]; simpl; [done|].
  rewrite filter_cons. case_decide; simpl; [by rewrite IH|].
  pose proof (split_nonempty sep s).
  destruct (split sep s); [done|]. simpl in *. done.
Qed.

Lemma split_join sep (pieces : list str) :
  pieces ≠ [] → Forall (λ p, sep ∉ p) pieces →
  split sep (join [sep] pieces) = pieces.
Proof.
  intros Hne Hp. induction Hp as [|p pieces Hp Hps IH]; [done|].
  destruct pieces as [|q pieces]; simpl.
  - by apply split_no_sep.
  - change (p ++ sep :: join [sep] (q :: pieces))
      with (p ++ sep :: join [sep] (q :: pieces)).
    rewrite split_app, split_no_sep by done. simpl. f_equal. by apply IH.
Qed.

Section dicts.
Context {K V : Type} `{Countable K}.
Implicit Types (m : gmap K V) (l acc : list (K * V)).

Lemma updated_snoc m l k v :
  updated m (l ++ [(k, v)]) = <[k := v]> (updated m l).
Proof. unfold updated. by rewrite foldl_app. Qed.

Lemma updated_insert_comm m l k v :
  k ∉ l.*1 → updated (<[k := v]> m) l = <[k := v]> (updated m l).
Proof.
  revert m. induction l as [|[k1 v1] l IH]; intros m Hk; [done|].
  apply not_elem_of_cons in Hk as [Hk1 Hk]. unfold updated in *. csimpl.
  rewrite <-IH by done. by rewrite insert_insert_ne.
Qed.

Lemma updated_is_Some m l k :
  is_Some (updated m l !! k) ↔ k ∈ l.*1 ∨ is_Some (m !! k).
Proof.
  revert m. induction l as [|[k1 v1] l IH]; intros m.
  - csimpl. rewrite elem_of_nil. tauto.
  - unfold updated in *. csimpl. rewrite IH, elem_of_cons.
    destruct (decide (k = k1)) as [->|Hne].
    + rewrite lookup_insert_eq. split; auto.
    + rewrite lookup_insert_ne by done. tauto.
Qed.

Lemma dict_setitem_keys k v acc :
  (dict_setitem k v acc).*1
  = if decide (k ∈ acc.*1) then acc.*1 else acc.*1 ++ [k].
Proof.
  induction acc as [|[k1 v1] acc IH]; csimpl; [done|].
  destruct (decide (k = k1)) as [->|Hne]; csimpl.
  - rewrite decide_True; [done|]. left.
  - rewrite IH. destruct (decide (k ∈ acc.*1)) as [Hin|Hin].
    + rewrite decide_True; [done|]. by right.
    + rewrite decide_False; [done|]. by intros [?|?]%elem_of_cons.
Qed.

Lemma dict_setitem_NoDup k v acc :
  NoDup acc.*1 → NoDup (dict_setitem k v acc).*1.
Proof.
  intros Hnd. rewrite dict_setitem_keys. case_decide as Hin; [done|].
  apply NoDup_app. split; [done|]. split; [|apply NoDup_singleton].
  intros x Hx ->%list_elem_of_singleton. done.
Qed.

Lemma updated_dict_setitem m k v acc :
  NoDup acc.*1 →
  updated m (dict_setitem k v acc) = <[k := v]> (updated m acc).
Proof.
  revert m. induction acc as [|[k1 v1] acc IH]; intros m Hnd; [done|].
  apply NoDup_cons in Hnd as [Hk1 Hnd]. csimpl.
  destruct (decide (k = k1)) as [->|Hne].
  - unfold updated. csimpl. fold (updated (<[k1:=v]> m) acc).
    fold (updated (<[k1:=v1]> m) acc).
    rewrite !updated_insert_comm by done. by rewrite insert_insert_eq.
  - unfold updated in *. csimpl. by rewrite IH.
Qed.

Lemma dict_items_aux m acc l :
  NoDup acc.*1 →
  let items := foldl (λ acc kv, dict_setitem kv.1 kv.2 acc) acc l in
  NoDup items.*1 ∧
  updated m items = updated (updated m acc) l ∧
  ∀ k, k ∈ items.*1 ↔ k ∈ acc.*1 ∨ k ∈ l.*1.
Proof.
  revert acc. induction l as [|[k v] l IH]; intros acc Hnd; csimpl.
  - split; [done|]. split; [done|]. intros k. rewrite elem_of_nil. tauto.
  - destruct (IH (dict_setitem k v acc)) as (Hnd' & Hup & Hin);
      [by apply dict_setitem_NoDup|].
    split; [done|]. split.
    + rewrite Hup, updated_dict_setitem by done. done.
    + intros k'. rewrite Hin, dict_setitem_keys, elem_of_cons.
      case_decide as Hk; [|rewrite elem_of_app, list_elem_of_singleton].
      * split; [tauto|]. intros [?|[->|?]]; auto.
      * tauto.
Qed.

(** [dict(pairs).items()] has each key of the pairs once, and putting its
    items into a dict one after the other is putting the pairs in. *)
Lemma dict_items_spec m l :
  NoDup (dict_items l).*1 ∧
  updated m (dict_items l) = updated m l ∧
  ∀ k, k ∈ (dict_items l).*1 ↔ k ∈ l.*1.
Proof.
  destruct (dict_items_aux m [] l) as (? & ? & Hin); [constructor|].
  split; [done|]. split; [done|]. intros k. rewrite (Hin k), elem_of_nil.
  tauto.
Qed.

End dicts.

End Py_more_facts.

(** *** More on strokes *)
Module steno_more_facts.
Import Py Py_spec Py_facts Py_more_facts steno steno_spec steno_facts.

Section other_keys.
Context `{System}.

Lemma other_keys_replace_number_key s :
  other_keys (replace_by_empty NUMBER_KEY s) = other_keys s.
Proof.
  unfold other_keys, replace_by_empty.
  destruct NUMBER_KEY as [|c [|]] eqn:Enk; [done| |done].
  induction s as [|a s IH]; [done|].
  rewrite (filter_cons (λ a, a ≠ c)). case_decide as Ha.
  - rewrite !filter_cons, IH. done.
  - rewrite IH. rewrite (filter_cons_False _ a); [done|].
    intros [_ Hc]. apply Hc. f_equal. by try apply dec_stable in Ha.
Qed.

Lemma other_keys_replace_hyphen s :
  other_keys (replace_by_empty ["-"%char] s) = other_keys s.
Proof.
  unfold other_keys, replace_by_empty.
  induction s as [|a s IH]; [done|].
  rewrite (filter_cons (λ a, a ≠ "-"%char)). case_decide as Ha.
  - rewrite !filter_cons, IH. done.
  - rewrite IH. rewrite (filter_cons_False _ a); [done|]. by intros [? _].
Qed.

Lemma other_keys_insert_hyphen n s :
  other_keys (take n s ++ "-"%char :: drop n s) = other_keys s.
Proof.
  unfold other_keys. rewrite filter_app, filter_cons_False by by intros [? _].
  by rewrite <-filter_app, take_drop.
Qed.

Lemma other_keys_removelast s :
  endswith_hyphen s = true → other_keys (removelast s) = other_keys s.
Proof.
  unfold endswith_hyphen. rewrite bool_decide_eq_true.
  intros [l ->]%last_Some. rewrite removelast_last. unfold other_keys.
  rewrite filter_app, filter_cons_False by by intros [? _].
  by rewrite app_nil_r.
Qed.

(** X1: [normalize_stroke] adds and drops hyphens and drops the number
    key, nothing else: the other characters of the stroke come out as they
    went in, in their order. *)
Theorem normalize_stroke_keeps_other_keys (s : str) :
  other_keys (normalize_stroke s) = other_keys s.
Proof.
  unfold normalize_stroke.
  assert (∀ s0 m, other_keys s0 = other_keys s →
    other_keys
      match m with
      | Some start => take start s0 ++ "-"%char :: drop start s0
      | None =>
          if bool_decide ("-"%char ∈ s) then
            if endswith_hyphen s0 then removelast s0
            else if has_implicit_hyphen s
                 then replace_by_empty ["-"%char] s0 else s0
          else s0
      end = other_keys s) as Hrest.
  { intros s0 [start|] Hs0; [by rewrite other_keys_insert_hyphen|].
    case_bool_decide; [|done].
    destruct (endswith_hyphen s0) eqn:Ee; [by rewrite other_keys_removelast|].
    destruct (has_implicit_hyphen s); [|done].
    by rewrite other_keys_replace_hyphen. }
  destruct (has_number s); [|by apply (Hrest s None)].
  destruct (in_letters s NUMBER_KEY); apply Hrest; [|done].
  apply other_keys_replace_number_key.
Qed.

(** X2: [normalize_steno] gives one stroke more than the text has
    delimiters, and the strokes of two texts joined by a delimiter are the
    strokes of the first followed by those of the second. *)
Theorem normalize_steno_concat (a b : str) :
  length (normalize_steno a)
  = S (length (filter (λ c, c = STROKE_DELIMITER) a)) ∧
  normalize_steno (a ++ STROKE_DELIMITER :: b)
  = normalize_steno a ++ normalize_steno b.
Proof.
  unfold normalize_steno. split.
  - by rewrite length_fmap, split_length.
  - by rewrite split_app, fmap_app.
Qed.

(** X3: a sequence of strokes that hold no delimiter and that
    [normalize_stroke] leaves as they are is read back from its text: the
    strokes joined by "/" normalise to the sequence itself. *)
Theorem normalize_steno_join (strokes : list str) :
  strokes ≠ [] →
  Forall (λ stroke, STROKE_DELIMITER ∉ stroke) strokes →
  Forall (λ stroke, normalize_stroke stroke = stroke) strokes →
  normalize_steno (join [STROKE_DELIMITER] strokes) = strokes.
Proof.
  intros Hne Hd Hn. unfold normalize_steno. rewrite split_join by done.
  induction Hn as [|stroke strokes Hs _ IH]; [done|].
  apply Forall_cons in Hd as [_ Hd]. csimpl. rewrite Hs. f_equal.
  destruct strokes as [|s' strokes]; [done|]. by apply IH.
Qed.

End other_keys.

Lemma strokes_and_keys_lt (a b : str) :
  tuple2_lt (strokes_and_keys b) (strokes_and_keys a) = false →
  not_longer a b.
Proof.
  unfold tuple2_lt, strokes_and_keys, not_longer. simpl.
  repeat case_decide; unfold lt, Z_Lt; rewrite ?Z.ltb_ge; lia.
Qed.

(** X4: [sort_steno_strokes] returns the suggestions it was given, in an
    order in which none comes before one with fewer strokes, or with as
    many strokes and fewer characters. *)
Theorem sort_steno_strokes_sorted (strokes_list : list str) :
  sort_steno_strokes strokes_list ≡ₚ strokes_list ∧
  StronglySorted not_longer (sort_steno_strokes strokes_list).
Proof.
  unfold sort_steno_strokes. split; [apply sorted_perm|].
  eapply StronglySorted_mono; [|apply sorted_ge].
  - intros a b. apply strokes_and_keys_lt.
  - intros a. apply tuple2_lt_irrefl.
  - intros a b c. apply tuple2_lt_trans.
Qed.

Example sort_steno_strokes_sample :
  sort_steno_strokes (chars <$> ["KAT/-S"; "KATS"; "KA/T/-S"; "KAT"]%string)
  = chars <$> ["KAT"; "KATS"; "KAT/-S"; "KA/T/-S"]%string.
Proof. vm_compute. reflexivity. Qed.

(** X3 on the key ("KAT", "-S") under the English layout. *)
Lemma normalize_steno_join_witness :
  @normalize_steno english_stenotype
     (join [STROKE_DELIMITER] (chars <$> ["KAT"; "-S"]%string))
  = chars <$> ["KAT"; "-S"]%string.
Proof.
  apply (@normalize_steno_join english_stenotype).
  - discriminate.
  - repeat constructor; vm_compute; intros Hin;
      repeat (apply elem_of_cons in Hin as [Hin|Hin]; [discriminate|]);
      by apply elem_of_nil in Hin.
  - repeat constructor; vm_compute; reflexivity.
Defined.

End steno_more_facts.

(** *** More on the similarity index *)
Module SimilarSearchDict_more_facts.
Import Py Py_spec Py_facts Py_more_facts.
Import SimilarSearchDict SimilarSearchDict_spec SimilarSearchDict_facts.

Section loop.
Context {K S : Type}.
Implicit Types (rest : list (S * K)) (keys : list K) (count : option Z).

(** The scan returns the keys it had, then the keys of a stretch of the
    list from where it started, each of which passed the filter. *)
Lemma filter_keys_loop_take filterfn simkey count rest keys :
  ∃ n, filter_keys_loop filterfn simkey count rest keys
       = keys ++ (take n rest).*2 ∧
       Forall (λ e, ∀ f, filterfn = Some f → f e.1 simkey = true)
              (take n rest).
Proof.
  revert keys. induction rest as [|[sk rk] rest IH]; intros keys; simpl.
  - exists 0%nat. by rewrite app_nil_r.
  - destruct (match filterfn with
              | Some f => negb (f sk simkey) | None => false end) eqn:Ef.
    { exists 0%nat. simpl. by rewrite app_nil_r. }
    assert (∀ f, filterfn = Some f → f sk simkey = true) as Hf.
    { intros f ->. by apply negb_false_iff in Ef. }
    destruct (match count with
              | Some c => bool_decide (c ≤ Z.of_nat (length (keys ++ [rk])))%Z
              | None => false end).
    + exists 1%nat. simpl. split; [done|]. by repeat constructor.
    + destruct (IH (keys ++ [rk])) as (n & -> & Hn). exists (Datatypes.S n). csimpl.
      split; [by rewrite <-app_assoc|]. by constructor.
Qed.

Lemma filter_keys_loop_count filterfn simkey (c : Z) rest keys :
  (Z.of_nat (length keys) < c)%Z →
  filter_keys_loop filterfn simkey (Some c) rest keys
  = take (Z.to_nat c) (filter_keys_loop filterfn simkey None rest keys).
Proof.
  revert keys. induction rest as [|[sk rk] rest IH]; intros keys Hlen; simpl.
  - rewrite take_ge; [done|lia].
  - destruct (match filterfn with
              | Some f => negb (f sk simkey) | None => false end).
    { rewrite take_ge; [done|lia]. }
    case_bool_decide as Hc.
    + destruct (filter_keys_loop_take filterfn simkey None rest (keys ++ [rk]))
        as (n & -> & _).
      rewrite length_app in Hc. simpl in Hc.
      rewrite take_app_length'; [done|]. rewrite length_app. simpl. lia.
    + apply IH. rewrite length_app in *. simpl in *. lia.
Qed.

Lemma filter_keys_loop_all simkey rest keys :
  filter_keys_loop None simkey None rest keys = keys ++ rest.*2.
Proof.
  revert keys. induction rest as [|[sk rk] rest IH]; intros keys; simpl.
  - by rewrite app_nil_r.
  - rewrite IH. csimpl. by rewrite <-app_assoc.
Qed.

End loop.

Section facts.
Context {K S V : Type} `{Countable K} `{EqDecision S}.
Context `{TotalLt K} `{TotalLt S}.

Implicit Types (self : t K S V) (k rk : K) (sk : S).

(** X5: with a count of at least one, [filter_keys] returns the first
    [count] keys of what it returns without a count, whatever the filter;
    so no more than [count] keys. *)
Theorem filter_keys_count_prefix self k (c : Z)
    (filterfn : option (S → S → bool)) :
  (1 ≤ c)%Z →
  ∃ keys self',
    filter_keys self k None filterfn = Normal keys self' ∧
    filter_keys self k (Some c) filterfn
    = Normal (take (Z.to_nat c) keys) self'.
Proof.
  intros Hc. unfold filter_keys. destruct (_index_left self k) as [idx self'].
  eexists _, _. split; [done|].
  rewrite filter_keys_loop_count; [done|simpl; lia].
Qed.

Lemma sorted_equal_first simkey (l : list (S * K)) :
  StronglySorted pair_lt l → Forall (λ e, e.1 = simkey) l →
  StronglySorted (lt_rel lt) l.*2.
Proof.
  intros Hs. induction Hs as [|[sk rk] l Hs IH Hhd]; intros Heq; csimpl;
    [constructor|].
  apply Forall_cons in Heq as [Hsk Heq]. simpl in Hsk. subst sk.
  constructor; [by apply IH|]. apply Forall_fmap, Forall_forall.
  intros [sk' rk'] Hin. rewrite Forall_forall in Hhd, Heq.
  specialize (Hhd _ Hin). specialize (Heq _ Hin). simpl in *. subst sk'.
  unfold pair_lt, tuple2_lt in Hhd. simpl in Hhd.
  rewrite decide_True in Hhd by done. unfold lt_rel.
  by destruct (decide (rk = rk')).
Qed.

Lemma get_similar_keys_sorted_wf self k count :
  wf self →
  ∃ keys self', get_similar_keys self k count = Normal keys self' ∧
                StronglySorted (lt_rel lt) keys.
Proof.
  intros Hwf. unfold get_similar_keys, filter_keys, _index_left.
  set (self1 := if _needs_sorting self then sort self else self).
  assert (StronglySorted pair_lt (_list self1)) as Hs.
  { subst self1. destruct (_needs_sorting self) eqn:En.
    - by apply (wf_sorted _ (wf_sort _ Hwf)).
    - by apply (wf_sorted _ Hwf). }
  eexists _, _. split; [done|].
  match goal with
  | |- StronglySorted _ (filter_keys_loop ?f ?sk ?c (drop ?idx ?l) []) =>
      destruct (filter_keys_loop_take f sk c (drop idx l) [])
        as (n & -> & Hn);
      apply StronglySorted_drop with (n := idx) in Hs;
      rewrite <-(take_drop n (drop idx l)) in Hs;
      apply StronglySorted_app_1_l in Hs
  end.
  simpl. apply (sorted_equal_first (_simfn self k)); [done|].
  eapply Forall_impl; [exact Hn|]. intros e He.
  specialize (He _ eq_refl). unfold operator_eq in He.
  by apply bool_decide_eq_true in He.
Qed.

(** X6: after any run of [__setitem__] and [__delitem__] from the empty
    dictionary, the keys that [get_similar_keys] returns, with a count or
    without, come in strictly rising order; in particular none comes
    twice. *)
Theorem get_similar_keys_sorted (simfn : K → S) (ops : list (op K V)) k
    count :
  ∃ keys self',
    get_similar_keys (run simfn ops) k count = Normal keys self' ∧
    StronglySorted (lt_rel lt) keys.
Proof. apply get_similar_keys_sorted_wf, wf_run. Qed.

Lemma index_left_wf self k :
  wf self →
  let '(idx, self1) := _index_left self k in
  wf self1 ∧ dict self1 = dict self ∧ _simfn self1 = _simfn self ∧
  Forall (λ e, tuple2_lt_tuple1 e (_simfn self k) = true)
         (take idx (_list self1)) ∧
  Forall (λ e, tuple2_lt_tuple1 e (_simfn self k) = false)
         (drop idx (_list self1)).
Proof.
  intros Hwf. unfold _index_left.
  set (self1 := if _needs_sorting self then sort self else self).
  assert (wf self1 ∧ _needs_sorting self1 = false ∧ dict self1 = dict self ∧
          _simfn self1 = _simfn self) as (Hwf1 & Hn & Hd & Hf).
  { subst self1. destruct (_needs_sorting self) eqn:En; [|done].
    split; [by apply wf_sort|done]. }
  rewrite Hf. split; [done|]. split; [done|]. split; [done|].
  apply index_left_sorted, (wf_sorted _ Hwf1 Hn).
Qed.

Lemma filter_keys_unfiltered_wf self k :
  wf self →
  ∃ keys self',
    filter_keys self k None None = Normal keys self' ∧
    ∀ rk, rk ∈ keys ↔
          is_Some (dict self !! rk) ∧
          lt (_simfn self rk) (_simfn self k) = false.
Proof.
  intros Hwf. unfold filter_keys.
  pose proof (index_left_wf self k Hwf) as Hidx.
  destruct (_index_left self k) as [idx self1].
  destruct Hidx as (Hwf1 & Hd & Hf & Hlt & Hge).
  eexists _, _. split; [done|]. intros rk.
  rewrite filter_keys_loop_all. simpl. rewrite list_elem_of_fmap. split.
  - intros ([sk rk'] & -> & Hin). simpl.
    rewrite Forall_forall in Hge. pose proof (Hge _ Hin) as Hsk.
    apply elem_of_drop_1, (wf_entries _ Hwf1) in Hin as [Hin ->].
    rewrite Hd in Hin. rewrite Hf in Hsk. split; [done|].
    unfold tuple2_lt_tuple1 in Hsk. simpl in Hsk.
    case_decide as He; [|done]. rewrite He. apply lt_irrefl.
  - intros [Hin Hsk]. exists (_simfn self rk, rk). split; [done|].
    assert ((_simfn self rk, rk) ∈ _list self1) as Hl.
    { apply (wf_entries _ Hwf1). by rewrite Hd, Hf. }
    apply (elem_of_take_drop _ idx) in Hl as [Hl|Hl]; [|done].
    rewrite Forall_forall in Hlt. specialize (Hlt _ Hl).
    unfold tuple2_lt_tuple1 in Hlt. simpl in Hlt.
    case_decide; [done|congruence].
Qed.

(** X7: without a filter and without a count, [filter_keys] returns, after
    any run of [__setitem__] and [__delitem__] from the empty dictionary,
    exactly the keys of the dictionary whose similarity key is not smaller
    than that of the key asked for. *)
Theorem filter_keys_unfiltered (simfn : K → S) (ops : list (op K V)) k :
  ∃ keys self',
    filter_keys (run simfn ops) k None None = Normal keys self' ∧
    ∀ rk, rk ∈ keys ↔
          is_Some (dict (run simfn ops) !! rk) ∧
          lt (simfn rk) (simfn k) = false.
Proof.
  destruct (wf_run simfn ops) as [Hwf Hf].
  destruct (filter_keys_unfiltered_wf _ k Hwf) as (keys & self' & ? & Hk).
  rewrite Hf in Hk. eauto.
Qed.

Lemma setitem_dict self k v :
  ∃ self', __setitem__ self k v = Normal tt self' ∧
           dict self' = <[k := v]> (dict self) ∧
           _simfn self' = _simfn self.
Proof.
  unfold __setitem__. eexists. split; [done|].
  by destruct (dict self !! k).
Qed.

Lemma update_loop_wf self (items : list (K * V)) :
  wf self →
  ∃ self', update_loop self items = Normal tt self' ∧ wf self' ∧
           dict self' = updated (dict self) items ∧
           _simfn self' = _simfn self.
Proof.
  revert self. induction items as [|[k v] items IH]; intros self Hwf.
  - by exists self.
  - cbn [update_loop].
    destruct (setitem_dict self k v) as (self1 & Hset & Hd & Hf).
    pose proof (wf_setitem self k v Hwf) as Hwf1. rewrite Hset in Hwf1 |- *.
    simpl in Hwf1. destruct (IH self1 Hwf1) as (self' & -> & ? & Hd' & Hf').
    exists self'. split; [done|]. split; [done|].
    rewrite Hd', Hd, Hf', Hf. done.
Qed.

Lemma sort_wf_of self :
  NoDup (_list self) →
  (∀ sk rk, (sk, rk) ∈ _list self
            ↔ is_Some (dict self !! rk) ∧ sk = _simfn self rk) →
  wf (sort self).
Proof.
  intros Hnd Hent. split; simpl.
  - by rewrite sorted_pairs_Permutation.
  - intros sk rk. by rewrite sorted_pairs_Permutation.
  - intros _. by apply sorted_pairs_sorted.
Qed.

Lemma update_wf self (pairs : list (K * V)) :
  wf self →
  ∃ self', update self pairs = Normal tt self' ∧ wf self' ∧
           dict self' = updated (dict self) pairs ∧
           _needs_sorting self' = false ∧ _simfn self' = _simfn self.
Proof.
  intros Hwf. unfold update.
  destruct (dict_items_spec (dict self) pairs) as (Hnd & Hup & Hin).
  case_decide as He.
  - eexists. split; [done|]. split; [|done]. apply sort_wf_of; simpl.
    + apply (NoDup_fmap_1 snd). by rewrite <-list_fmap_compose.
    + intros sk rk. rewrite list_elem_of_fmap.
      fold (updated (dict self) pairs).
      rewrite updated_is_Some, He, lookup_empty, <-Hin. split.
      * intros ([k' v'] & [= -> ->] & Hkv). simpl. split; [|done]. left.
        apply list_elem_of_fmap. by exists (k', v').
      * intros [[Hrk|[? ?]] ->]; [|done].
        apply list_elem_of_fmap in Hrk as ([k' v'] & -> & Hkv).
        by exists (k', v').
  - destruct (update_loop_wf self (dict_items pairs) Hwf)
      as (self' & -> & Hwf' & Hd & Hf).
    eexists. split; [done|]. split; [by apply wf_sort|]. simpl.
    by rewrite Hd, Hup.
Qed.

(** X8: [update] after any run of [__setitem__] and [__delitem__] from
    the empty dictionary returns normally; the dict then holds the pairs
    over what it held, the later of two pairs with one key; the list is
    sorted, has one pair for each key of the dict and nothing else, and the
    flag is down. *)
Theorem update_sorted_and_in_step (simfn : K → S) (ops : list (op K V))
    (pairs : list (K * V)) :
  ∃ self',
    update (run simfn ops) pairs = Normal tt self' ∧
    dict self' = updated (dict (run simfn ops)) pairs ∧
    _needs_sorting self' = false ∧
    StronglySorted pair_lt (_list self') ∧
    ∀ sk rk, (sk, rk) ∈ _list self'
             ↔ is_Some (dict self' !! rk) ∧ sk = simfn rk.
Proof.
  destruct (wf_run simfn ops) as [Hwf Hf].
  destruct (update_wf _ pairs Hwf) as (self' & Hu & Hwf' & Hd & Hn & Hf').
  exists self'. split; [done|]. split; [done|]. split; [done|].
  split; [by apply (wf_sorted _ Hwf')|].
  intros sk rk. rewrite (wf_entries _ Hwf'), Hf', Hf. done.
Qed.

(** X9: the similarity search is exact after an [update] too:
    [get_similar_keys] without a count then returns exactly the keys of the
    updated dictionary that the similarity function sends where it sends
    the key asked for. *)
Theorem get_similar_keys_after_update (simfn : K → S) (ops : list (op K V))
    (pairs : list (K * V)) k :
  ∃ self' keys self'',
    update (run simfn ops) pairs = Normal tt self' ∧
    get_similar_keys self' k None = Normal keys self'' ∧
    ∀ rk, rk ∈ keys ↔
          is_Some (updated (dict (run simfn ops)) pairs !! rk) ∧
          simfn rk = simfn k.
Proof.
  destruct (wf_run simfn ops) as [Hwf Hf].
  destruct (update_wf _ pairs Hwf) as (self' & Hu & Hwf' & Hd & Hn & Hf').
  destruct (get_similar_keys_wf _ k Hwf')
    as (keys & self'' & Hg & _ & _ & _ & Hk).
  exists self', keys, self''. split; [done|]. split; [done|].
  intros rk. rewrite Hk, Hd, Hf', Hf. done.
Qed.

(** X10: putting in a key that the dictionary does not have and deleting
    it again gives back the dictionary: both calls return normally, the
    dict is what it was, and the list has the pairs it had. *)
Theorem setitem_delitem_round_trip (simfn : K → S) (ops : list (op K V))
    k v :
  dict (run simfn ops) !! k = None →
  ∃ self1 self2,
    __setitem__ (run simfn ops) k v = Normal tt self1 ∧
    __delitem__ self1 k = Normal tt self2 ∧
    dict self2 = dict (run simfn ops) ∧
    _list self2 ≡ₚ _list (run simfn ops).
Proof.
  intros Hk. destruct (wf_run simfn ops) as [Hwf Hf].
  destruct (setitem_dict (run simfn ops) k v) as (self1 & Hset & Hd1 & Hf1).
  pose proof (wf_setitem _ k v Hwf) as Hwf1. rewrite Hset in Hwf1.
  simpl in Hwf1.
  destruct (delitem_present self1 k v Hwf1) as (self2 & Hdel & Hwf2 & Hd2 & Hf2).
  { by rewrite Hd1, lookup_insert_eq. }
  exists self1, self2. split; [done|]. split; [done|].
  assert (dict self2 = dict (run simfn ops)) as Hd.
  { rewrite Hd2, Hd1. by apply delete_insert_id. }
  split; [done|].
  apply NoDup_Permutation; [apply Hwf2|apply Hwf|].
  intros [sk rk]. rewrite (wf_entries _ Hwf2), (wf_entries _ Hwf).
  by rewrite Hd, Hf2, Hf1.
Qed.

Lemma wf_clear self : wf (clear self).
Proof.
  split; simpl.
  - constructor.
  - intros sk rk. rewrite lookup_empty, elem_of_nil.
    split; [done|]. intros [[? ?] _]. done.
  - constructor.
Qed.

(** X27: [clear] puts any object, even one whose list and dict are out of
    step, back in step: it leaves no key and no pair, and after any run of
    [__setitem__] and [__delitem__] from the cleared object the similarity
    search is exact again, under the similarity function the object
    had. *)
Theorem clear_then_exact self (ops : list (op K V)) k :
  dict (clear self) = ∅ ∧ _list (clear self) = [] ∧
  ∃ keys self',
    get_similar_keys (run_from (clear self) ops) k None = Normal keys self' ∧
    ∀ rk, rk ∈ keys ↔
          is_Some (dict (run_from (clear self) ops) !! rk) ∧
          _simfn self rk = _simfn self k.
Proof.
  split; [done|]. split; [done|].
  destruct (wf_run_from (clear self) ops (wf_clear self)) as [Hwf Hf].
  destruct (get_similar_keys_wf _ k Hwf)
    as (keys & self' & Hg & _ & _ & _ & Hk).
  exists keys, self'. split; [done|].
  intros rk. rewrite Hk, Hf. done.
Qed.

End facts.

Example update_sample :
  ∃ self',
    update (run tens sample_ops) [(44, "x"); (11, "y"); (44, "z")]%nat%string
    = Normal tt self' ∧
    _list self' = [(1, 10); (1, 11); (1, 12); (1, 17); (2, 25); (4, 44)]%nat ∧
    dict self' !! 44%nat = Some "z"%string.
Proof. eexists. vm_compute. done. Qed.

(** X5 on the sample run, for the first two keys similar to 15. *)
Lemma filter_keys_count_prefix_witness :
  ∃ keys self',
    filter_keys (run tens sample_ops) 15%nat None (Some operator_eq)
    = Normal keys self' ∧
    filter_keys (run tens sample_ops) 15%nat (Some 2%Z) (Some operator_eq)
    = Normal (take (Z.to_nat 2) keys) self'.
Proof. apply filter_keys_count_prefix. lia. Defined.

(** X6 on the sample run. *)
Lemma get_similar_keys_sorted_witness :
  ∃ keys self',
    get_similar_keys (run tens sample_ops) 15%nat None = Normal keys self' ∧
    StronglySorted (lt_rel lt) keys.
Proof. apply (get_similar_keys_sorted tens sample_ops 15%nat None). Defined.

(** X7 on the sample run. *)
Lemma filter_keys_unfiltered_witness :
  ∃ keys self',
    filter_keys (run tens sample_ops) 15%nat None None = Normal keys self' ∧
    ∀ rk, rk ∈ keys ↔
          is_Some (dict (run tens sample_ops) !! rk) ∧
          lt (tens rk) (tens 15%nat) = false.
Proof. apply (filter_keys_unfiltered tens sample_ops 15%nat). Defined.

(** X8 on the sample run. *)
Lemma update_sorted_and_in_step_witness :
  ∃ self',
    update (run tens sample_ops) [(44, "x"); (11, "y")]%nat%string
    = Normal tt self' ∧
    dict self'
    = updated (dict (run tens sample_ops)) [(44, "x"); (11, "y")]%nat%string ∧
    _needs_sorting self' = false ∧
    StronglySorted pair_lt (_list self') ∧
    ∀ sk rk, (sk, rk) ∈ _list self'
             ↔ is_Some (dict self' !! rk) ∧ sk = tens rk.
Proof. apply (update_sorted_and_in_step tens sample_ops). Defined.

(** X9 on the sample run. *)
Lemma get_similar_keys_after_update_witness :
  ∃ self' keys self'',
    update (run tens sample_ops) [(44, "x"); (11, "y")]%nat%string
    = Normal tt self' ∧
    get_similar_keys self' 15%nat None = Normal keys self'' ∧
    ∀ rk, rk ∈ keys ↔
          is_Some (updated (dict (run tens sample_ops))
                     [(44, "x"); (11, "y")]%nat%string !! rk) ∧
          tens rk = tens 15%nat.
Proof. apply (get_similar_keys_after_update tens sample_ops). Defined.

(** X10 on the sample run: 40 is not a key of it. *)
Lemma setitem_delitem_round_trip_witness :
  ∃ self1 self2,
    __setitem__ (run tens sample_ops) 40%nat "g"%string = Normal tt self1 ∧
    __delitem__ self1 40%nat = Normal tt self2 ∧
    dict self2 = dict (run tens sample_ops) ∧
    _list self2 ≡ₚ _list (run tens sample_ops).
Proof.
  apply (setitem_delitem_round_trip tens sample_ops). vm_compute. reflexivity.
Defined.

(** X27 on the sample run, cleared and filled again. *)
Lemma clear_then_exact_witness :
  ∃ keys self',
    get_similar_keys
      (run_from (clear (run tens sample_ops))
         [SetItem 17 "c"; SetItem 25 "b"; SetItem 12 "a"]%nat%string)
      15%nat None
    = Normal keys self' ∧
    ∀ rk, rk ∈ keys ↔
          is_Some (dict (run_from (clear (run tens sample_ops))
                           [SetItem 17 "c"; SetItem 25 "b";
                            SetItem 12 "a"]%nat%string) !! rk) ∧
          tens rk = tens 15%nat.
Proof.
  destruct (clear_then_exact (run tens sample_ops)
              [SetItem 17 "c"; SetItem 25 "b"; SetItem 12 "a"]%nat%string
              15%nat) as (_ & _ & Hexact).
  exact Hexact.
Defined.

End SimilarSearchDict_more_facts.

(** *** More on a single dictionary *)
Module StenoDictionary_more_facts.
Import Py Py_spec Py_facts Py_more_facts.
Import StenoDictionary StenoDictionary_spec StenoDictionary_facts.

Section facts.
Context {K V : Type} `{Countable K} `{Countable V}.

Implicit Types (self : t K V) (rev : ReverseStenoDict.t K V).
Implicit Types (k key : K) (v value : V).

Lemma assoc_set_dict_setitem k v (l : list (K * V)) :
  assoc_set k v l = dict_setitem k v l.
Proof.
  induction l as [|[k' v'] l IH]; simpl; [done|].
  case_decide; [done|]. by rewrite IH.
Qed.

Lemma dict_items_eq (pairs : list (K * V)) :
  StenoDictionary.dict_items pairs = Py.dict_items pairs.
Proof.
  unfold StenoDictionary.dict_items, Py.dict_items.
  generalize (@nil (K * V)). induction pairs as [|[k v] pairs IH];
    intros acc; simpl; [done|].
  by rewrite assoc_set_dict_setitem, IH.
Qed.

Lemma update_loop_writable self (items : list (K * V)) :
  readonly self = false →
  ∃ self', update_loop self items = Normal tt self' ∧
           dict self' = updated (dict self) items ∧
           readonly self' = false ∧ enabled self' = enabled self.
Proof.
  revert self. induction items as [|[k v] items IH]; intros self Hro.
  - by exists self.
  - cbn [update_loop]. unfold __setitem__ at 1. rewrite Hro.
    match goal with
    | |- context [update_loop ?s items] =>
        destruct (IH s) as (self' & -> & Hd & Hr & He); [done|]
    end.
    by exists self'.
Qed.

(** X11: on a dictionary that is not read-only [update] returns normally,
    on its fast path and on its slow one, and the forward mapping then
    holds the pairs over what it held, the later of two pairs with one key;
    the two flags stay as they were. *)
Theorem update_overlays self (pairs : list (K * V)) :
  readonly self = false →
  ∃ self', update self pairs = Normal tt self' ∧
           dict self' = updated (dict self) pairs ∧
           readonly self' = false ∧ enabled self' = enabled self.
Proof.
  intros Hro. unfold update. rewrite Hro. case_decide as He.
  - eexists. split; [done|]. by split.
  - destruct (update_loop_writable self (StenoDictionary.dict_items pairs) Hro)
      as (self' & Hu & Hd & Hr & Hen).
    exists self'. split; [done|]. split; [|done].
    rewrite Hd, dict_items_eq.
    by destruct (dict_items_spec (dict self) pairs) as (_ & -> & _).
Qed.

(** X12: [update], and [clear], keep the reverse index exact: after any
    run of [__setitem__] and [__delitem__] from the empty dictionary
    followed by an [update] or by a [clear], [reverse_lookup] gives for
    every value exactly the keys that the forward mapping sends to it. *)
Theorem update_keeps_reverse_exact (ops : list (op K V))
    (pairs : list (K * V)) v :
  (let d := state_of (update (run ops) pairs) in
   reverse_lookup d v = keys_of (dict d) v) ∧
  (let d := state_of (clear (run ops)) in
   reverse_lookup d v = keys_of (dict d) v).
Proof.
  pose proof (inverse_run_from __init__ ops inverse_init) as Hwf.
  fold (run ops) in Hwf. split; cbv zeta; apply set_eq; intros k;
    rewrite keys_of_spec.
  - by apply inverse_reverse_exact, inverse_update.
  - by apply inverse_reverse_exact, inverse_clear.
Qed.

(** X13: giving a key that maps to [old] another value moves it in the
    reverse index: the key leaves the keys of [old], joins the keys of the
    new value, and the keys of every other value stay as they were. *)
Theorem setitem_reassigns self key old value :
  readonly self = false →
  dict self !! key = Some old →
  old ≠ value →
  ∃ self', __setitem__ self key value = Normal tt self' ∧
    dict self' = <[key := value]> (dict self) ∧
    reverse_lookup self' old = reverse_lookup self old ∖ {[key]} ∧
    reverse_lookup self' value = {[key]} ∪ reverse_lookup self value ∧
    ∀ v, v ≠ old → v ≠ value → reverse_lookup self' v = reverse_lookup self v.
Proof.
  intros Hro Hold Hne. unfold __setitem__. rewrite Hro, Hold.
  eexists. split; [done|]. split; [done|].
  rewrite !reverse_lookup_keys_at. simpl.
  repeat split; [| |intros v Hv1 Hv2; rewrite !reverse_lookup_keys_at; simpl];
    rewrite keys_at_append_key, ?keys_at_remove_key;
    repeat case_decide; done.
Qed.

(** X14: on a dictionary whose reverse index is exact, setting a key that
    it does not have and deleting the key again gives back the very same
    dictionary, forward mapping and reverse index. *)
Theorem setitem_delitem_restores self key value :
  wf self →
  readonly self = false →
  dict self !! key = None →
  ∃ self1, __setitem__ self key value = Normal tt self1 ∧
           __delitem__ self1 key = Normal tt self.
Proof.
  intros [Hk Hs] Hro Hkey. unfold __setitem__. rewrite Hro, Hkey.
  eexists. split; [done|]. unfold __delitem__. simpl.
  rewrite lookup_insert_eq. f_equal.
  destruct self as [d [idx] ro en]. simpl in *. subst ro. f_equal.
  - by apply delete_insert_id.
  - unfold ReverseStenoDict.remove_key, ReverseStenoDict.append_key. simpl.
    rewrite lookup_insert_eq. f_equal.
    assert (key ∉ default ∅ (idx !! value)) as Hnot.
    { intros Hin. apply (Hk value key) in Hin. congruence. }
    assert (({[key]} ∪ default ∅ (idx !! value)) ∖ {[key]}
            = default ∅ (idx !! value)) as -> by set_solver.
    destruct (idx !! value) as [keys|] eqn:Ev; simpl.
    + rewrite decide_False; [|intros ->; by apply (Hs value)].
      rewrite insert_insert_eq. by apply insert_id.
    + rewrite decide_True by done. by apply delete_insert_id.
Qed.

End facts.

(** X11 on the dictionary {K1: "dog"}, which is not empty. *)
Lemma update_overlays_witness :
  let d : t (list string) string := run [SetItem K1 "dog"%string] in
  ∃ self',
    update d [(K2, "cat"%string); (K1, "cat"%string)] = Normal tt self' ∧
    dict self' = updated (dict d) [(K2, "cat"%string); (K1, "cat"%string)] ∧
    readonly self' = false ∧ enabled self' = enabled d.
Proof. apply update_overlays. reflexivity. Defined.

(** X13 on {K1: "dog", K2: "cat"}: K1 goes from "dog" to "cat". *)
Lemma setitem_reassigns_witness :
  let d : t (list string) string :=
    run [SetItem K1 "dog"%string; SetItem K2 "cat"%string] in
  ∃ self', __setitem__ d K1 "cat"%string = Normal tt self' ∧
    dict self' = <[K1 := "cat"%string]> (dict d) ∧
    reverse_lookup self' "dog"%string
    = reverse_lookup d "dog"%string ∖ {[K1]} ∧
    reverse_lookup self' "cat"%string
    = {[K1]} ∪ reverse_lookup d "cat"%string ∧
    ∀ v, v ≠ "dog"%string → v ≠ "cat"%string →
         reverse_lookup self' v = reverse_lookup d v.
Proof.
  apply setitem_reassigns; [reflexivity|by vm_compute|discriminate].
Defined.

(** X14 on {K1: "dog"} and the new key K2. *)
Lemma setitem_delitem_restores_witness :
  let d : t (list string) string := run [SetItem K1 "dog"%string] in
  ∃ self1, __setitem__ d K2 "cat"%string = Normal tt self1 ∧
           __delitem__ self1 K2 = Normal tt d.
Proof.
  apply setitem_delitem_restores.
  - apply inverse_run_from, inverse_init.
  - reflexivity.
  - by vm_compute.
Defined.

End StenoDictionary_more_facts.

(** *** More on the collection *)
Module StenoDictionaryCollection_more_facts.
Import Py Py_spec Py_facts Py_more_facts.
Import StenoDictionary_spec StenoDictionaryCollection.
Import StenoDictionaryCollection_spec StenoDictionaryCollection_facts.

Section facts.
Context {K V : Type} `{Countable K} `{Countable V}.
Context `{Lt V} `{Lower V} `{Is V} `{!ReverseStenoDict.Search K V}.

Implicit Types (self : t K V) (d : StenoDictionary.t K V).
Implicit Types (ds before after : list (StenoDictionary.t K V)).
Implicit Types (k key : K) (v value : V).

Lemma lookup_loop_raw_lookup_loop (fs : list (K → V → bool)) key ds :
  lookup_loop fs key ds
  = match raw_lookup_loop key ds with
    | Some value => if existsb (λ f, f key value) fs then None else Some value
    | None => None
    end.
Proof.
  induction ds as [|d ds IH]; simpl; [done|].
  by destruct (if StenoDictionary.enabled d
               then StenoDictionary.dict d !! key else None).
Qed.

(** X15: [lookup] is [raw_lookup] with the filters asked afterwards: it
    finds nothing where [raw_lookup] finds nothing, and otherwise gives
    the value of [raw_lookup] unless a filter is true of the key and that
    value. *)
Theorem lookup_filters_raw_lookup self key :
  lookup self key
  = match raw_lookup self key with
    | Some value =>
        if existsb (λ f, f key value) (filters self) then None else Some value
    | None => None
    end.
Proof. apply lookup_loop_raw_lookup_loop. Qed.

(** X28: a filter that is added is asked last, and only about what
    [lookup] found before: a key that was not found, or was caught by a
    filter, still gives [None]; a key that gave a value gives [None] when
    the new filter is true of the key and that value, and the value
    otherwise. *)
Theorem lookup_add_filter self (f : K → V → bool) key :
  lookup (add_filter self f) key
  = match lookup self key with
    | Some value => if f key value then None else Some value
    | None => None
    end.
Proof.
  unfold lookup. rewrite !lookup_loop_raw_lookup_loop. simpl.
  destruct (raw_lookup_loop key (dicts self)) as [value|]; [|done].
  rewrite existsb_app. simpl. rewrite orb_false_r.
  by destruct (existsb _ (filters self)).
Qed.

Lemma raw_lookup_loop_app key ds1 ds2 :
  raw_lookup_loop key (ds1 ++ ds2)
  = match raw_lookup_loop key ds1 with
    | Some value => Some value
    | None => raw_lookup_loop key ds2
    end.
Proof.
  induction ds1 as [|d ds1 IH]; simpl; [done|].
  by destruct (if StenoDictionary.enabled d
               then StenoDictionary.dict d !! key else None).
Qed.

Lemma raw_lookup_loop_none key ds :
  Forall (λ d', ¬ (StenoDictionary.enabled d' = true ∧
                   is_Some (StenoDictionary.dict d' !! key))) ds →
  raw_lookup_loop key ds = None.
Proof.
  induction 1 as [|d ds Hd _ IH]; simpl; [done|].
  destruct (StenoDictionary.enabled d) eqn:En; [|done].
  destruct (StenoDictionary.dict d !! key) eqn:Ek; [|done].
  destruct Hd. eauto.
Qed.

(** X16: with members whose own reverse lookup is exact, [reverse_lookup]
    is the inverse of [raw_lookup]: a key is among the keys returned for a
    value exactly when [raw_lookup] of the key returns that value. *)
Theorem reverse_lookup_inverts_raw_lookup self value k :
  Forall reverse_exact (dicts self) →
  k ∈ reverse_lookup self value ↔ raw_lookup self k = Some value.
Proof.
  destruct self as [ds fs]. unfold raw_lookup. simpl.
  induction ds as [|d ds IH]; intros Hex.
  - unfold reverse_lookup. simpl. by rewrite elem_of_empty.
  - apply Forall_cons in Hex as [Hd Hex]. specialize (IH Hex).
    rewrite reverse_lookup_cons, (reverse_lookup_step_elem _ _ _ _ Hd).
    simpl. destruct (StenoDictionary.enabled d); [|done].
    destruct (StenoDictionary.dict d !! k) as [x|] eqn:Ek.
    + split; [intros [?|[? _]]; done|]. by left.
    + rewrite <-IH. split; [intros [?|[_ ?]]; done|]. by right.
Qed.

(** X17: a member that is not enabled is not seen: [lookup], [raw_lookup]
    and [reverse_lookup] give what they give without it. *)
Theorem disabled_member_invisible self before d after :
  dicts self = before ++ d :: after →
  StenoDictionary.enabled d = false →
  (∀ key, lookup self key = lookup (set_dicts self (before ++ after)) key ∧
          raw_lookup self key
          = raw_lookup (set_dicts self (before ++ after)) key) ∧
  (∀ value, reverse_lookup self value
            = reverse_lookup (set_dicts self (before ++ after)) value).
Proof.
  intros Hd Hen. split.
  - intros key.
    assert (raw_lookup self key
            = raw_lookup (set_dicts self (before ++ after)) key) as Hraw.
    { unfold raw_lookup. simpl. rewrite Hd, !raw_lookup_loop_app. simpl.
      by rewrite Hen. }
    split; [|done]. unfold lookup. rewrite !lookup_loop_raw_lookup_loop.
    unfold raw_lookup in Hraw. by rewrite Hraw.
  - intros value. unfold reverse_lookup. simpl. rewrite Hd.
    rewrite !reverse_app, reverse_cons, <-!app_assoc, !foldl_app. simpl.
    unfold reverse_lookup_step at 2. by rewrite Hen.
Qed.

Lemma first_writable_loop_Some i0 ds i d :
  first_writable_loop i0 ds = Some (i, d) →
  ∃ n, i = (i0 + n)%nat ∧ ds !! n = Some d ∧
       StenoDictionary.readonly d = false ∧
       Forall (λ d', StenoDictionary.readonly d' = true) (take n ds).
Proof.
  revert i0. induction ds as [|d0 ds IH]; intros i0; simpl; [done|].
  destruct (StenoDictionary.readonly d0) eqn:Er; simpl.
  - intros (n & -> & Hn & Hr & Hb)%IH. exists (Datatypes.S n).
    split; [lia|]. split; [done|]. split; [done|]. by constructor.
  - intros [= <- <-]. exists 0%nat. split; [lia|]. by repeat split.
Qed.

Lemma first_writable_loop_None i0 ds :
  first_writable_loop i0 ds = None ↔
  Forall (λ d', StenoDictionary.readonly d' = true) ds.
Proof.
  revert i0. induction ds as [|d0 ds IH]; intros i0; simpl.
  - split; [constructor|done].
  - destruct (StenoDictionary.readonly d0) eqn:Er; simpl.
    + rewrite IH. split; [by constructor|]. by intros [_ ?]%Forall_cons.
    + split; [done|]. intros [? _]%Forall_cons. congruence.
Qed.

(** X18: [first_writable] returns the first member that is not read-only,
    all members before it being read-only, and leaves the collection as it
    is; it raises [KeyError] exactly when every member is read-only, and
    then [set] raises [KeyError] too and changes nothing. *)
Theorem first_writable_first self :
  match first_writable self with
  | Normal d self' =>
      self' = self ∧ StenoDictionary.readonly d = false ∧
      ∃ n, dicts self !! n = Some d ∧
           Forall (λ d', StenoDictionary.readonly d' = true)
                  (take n (dicts self))
  | Raised e self' =>
      e = KeyError ∧ self' = self ∧
      Forall (λ d', StenoDictionary.readonly d' = true) (dicts self) ∧
      ∀ key value, set self key value = Raised KeyError self
  end.
Proof.
  unfold first_writable, set.
  destruct (first_writable_loop 0 (dicts self)) as [[i d]|] eqn:E.
  - apply first_writable_loop_Some in E as (n & _ & Hn & Hr & Hb). eauto.
  - split; [done|]. split; [done|]. split; [|done].
    by apply first_writable_loop_None in E.
Qed.

Lemma first_writable_loop_app before d after :
  Forall (λ d', StenoDictionary.readonly d' = true) before →
  StenoDictionary.readonly d = false →
  ∀ i0, first_writable_loop i0 (before ++ d :: after)
        = Some ((i0 + length before)%nat, d).
Proof.
  intros Hb Hd. induction Hb as [|d0 before Hd0 _ IH]; intros i0; simpl.
  - rewrite Hd. simpl. do 2 f_equal. lia.
  - rewrite Hd0. simpl. rewrite IH. do 2 f_equal. lia.
Qed.

(** X19: what [set] writes [raw_lookup] reads back. When the first member
    that is not read-only is enabled and no enabled member before it has
    the key, [set] returns normally, [raw_lookup] of the key then gives the
    value set, and [raw_lookup] of every other key gives what it gave. *)
Theorem set_then_raw_lookup self key value before d after :
  dicts self = before ++ d :: after →
  Forall (λ d', StenoDictionary.readonly d' = true) before →
  StenoDictionary.readonly d = false →
  StenoDictionary.enabled d = true →
  Forall (λ d', ¬ (StenoDictionary.enabled d' = true ∧
                   is_Some (StenoDictionary.dict d' !! key))) before →
  ∃ self', set self key value = Normal tt self' ∧
           raw_lookup self' key = Some value ∧
           ∀ k, k ≠ key → raw_lookup self' k = raw_lookup self k.
Proof.
  intros Hd Hro Hw Hen Hkey. unfold set. rewrite Hd.
  rewrite (first_writable_loop_app before d after Hro Hw 0). simpl.
  unfold StenoDictionary.__setitem__. rewrite Hw.
  eexists. split; [done|]. unfold raw_lookup. simpl.
  replace (length before) with (length before + 0)%nat by lia.
  rewrite insert_app_r. simpl. rewrite Hd, !raw_lookup_loop_app. simpl.
  split.
  - rewrite (raw_lookup_loop_none key before Hkey), Hen.
    by rewrite lookup_insert_eq.
  - intros k Hk. rewrite !raw_lookup_loop_app. simpl.
    rewrite Hen, lookup_insert_ne by done. done.
Qed.

(** X20: every pair that [_multi_reverse_lookup] returns is a candidate
    translation with its [reverse_lookup]. *)
Theorem multi_reverse_lookup_sound self (values : list V) max_count :
  Forall (λ r, r.1 ∈ values ∧ r.2 = reverse_lookup self r.1)
         (_multi_reverse_lookup self values max_count).
Proof.
  unfold _multi_reverse_lookup.
  set (vs := sorted _ values).
  assert (∀ v, v ∈ vs → v ∈ values) as Hvs.
  { intros v. subst vs. by rewrite sorted_perm. }
  assert (Forall (λ r : V * gset K,
                    r.1 ∈ values ∧ r.2 = reverse_lookup self r.1) [])
    as Hres by constructor.
  revert Hvs Hres. generalize (@nil (V * gset K)) (@None V).
  induction vs as [|v vs IH]; intros results old_v Hvs Hres; simpl; [done|].
  assert (∀ v', v' ∈ vs → v' ∈ values) as Hvs'.
  { intros v' Hv'. apply Hvs. by right. }
  destruct (match old_v with Some o => negb (py_is v o) | None => true end);
    [|by apply IH].
  case_decide as Hk; [|by apply IH].
  assert (Forall (λ r : V * gset K,
                    r.1 ∈ values ∧ r.2 = reverse_lookup self r.1)
            (results ++ [(v, reverse_lookup self v)])) as Hres'.
  { apply Forall_app. split; [done|]. constructor; [|done]. simpl.
    split; [|done]. apply Hvs. left. }
  destruct (count_reached _ _); [done|by apply IH].
Qed.

Lemma multi_reverse_lookup_loop_complete self (vs : list V) old_v results v :
  (∀ a b : V, py_is a b = true → a = b) →
  (∀ o, old_v = Some o → reverse_lookup self o ≠ ∅ →
        (o, reverse_lookup self o) ∈ results) →
  v ∈ vs ∨ (v, reverse_lookup self v) ∈ results →
  reverse_lookup self v ≠ ∅ →
  (v, reverse_lookup self v)
  ∈ _multi_reverse_lookup_loop self None vs old_v results.
Proof.
  intros His. revert old_v results.
  induction vs as [|v0 vs IH]; intros old_v results Hold Hv Hne; simpl.
  - destruct Hv as [Hv|Hv]; [by apply elem_of_nil in Hv|done].
  - destruct (match old_v with Some o => negb (py_is v0 o) | None => true end)
      eqn:Eis.
    + case_decide as Hk.
      * apply IH; [| |done].
        -- intros o [= <-] _. apply elem_of_app. right. left.
        -- destruct Hv as [[->|Hv]%elem_of_cons|Hv]; [|by left|].
           ++ right. apply elem_of_app. right. left.
           ++ right. apply elem_of_app. by left.
      * apply IH; [|  |done].
        -- intros o [= <-] Ho. done.
        -- destruct Hv as [[->|Hv]%elem_of_cons|Hv]; [done|by left|by right].
    + destruct old_v as [o|]; [|done]. apply negb_false_iff, His in Eis.
      subst v0. apply IH; [done| |done].
      destruct Hv as [[->|Hv]%elem_of_cons|Hv]; [|by left|by right].
      right. by apply Hold.
Qed.

(** X21: where [is] holds of equal translations only, no candidate is
    lost without a count: every candidate translation that has a key under
    [reverse_lookup] is in the list that [_multi_reverse_lookup], and so
    [find_similar], returns, with these keys. *)
Theorem multi_reverse_lookup_complete self (values : list V) v :
  (∀ a b : V, py_is a b = true → a = b) →
  v ∈ values →
  reverse_lookup self v ≠ ∅ →
  (v, reverse_lookup self v) ∈ _multi_reverse_lookup self values None.
Proof.
  intros His Hv Hne. unfold _multi_reverse_lookup.
  apply multi_reverse_lookup_loop_complete; [done|done| |done].
  left. by rewrite sorted_perm.
Qed.

Lemma multi_reverse_lookup_loop_sublist self max_count (vs : list V) old_v
    results :
  ∃ l, (_multi_reverse_lookup_loop self max_count vs old_v results).*1
       = results.*1 ++ l ∧ l `sublist_of` vs.
Proof.
  revert old_v results.
  induction vs as [|v vs IH]; intros old_v results; simpl.
  - exists []. by rewrite app_nil_r.
  - assert (∀ o r, ∃ l,
        (_multi_reverse_lookup_loop self max_count vs o r).*1 = r.*1 ++ l ∧
        l `sublist_of` v :: vs) as IH'.
    { intros o r. destruct (IH o r) as (l & ? & ?). exists l.
      split; [done|]. by constructor. }
    destruct (match old_v with Some o => negb (py_is v o) | None => true end);
      [|by apply IH'].
    case_decide as Hk; [|by apply IH'].
    destruct (count_reached _ _).
    + exists [v]. rewrite fmap_app. split; [done|].
      constructor. apply sublist_nil_l.
    + destruct (IH (Some v) (results ++ [(v, reverse_lookup self v)]))
        as (l & -> & Hl).
      exists (v :: l). rewrite fmap_app, <-app_assoc. split; [done|].
      by constructor.
Qed.

(** X22: when [<] on the lower-cased translations is irreflexive and
    transitive, the translations that [_multi_reverse_lookup] returns come
    in the order of their lower-case forms: none comes before one whose
    lower-case form is smaller. *)
Theorem multi_reverse_lookup_ordered self (values : list V) max_count :
  (∀ a : V, lt a a = false) →
  (∀ a b c : V, lt a b = true → lt b c = true → lt a c = true) →
  StronglySorted (λ a b, lt (str_lower b) (str_lower a) = false)
                 (_multi_reverse_lookup self values max_count).*1.
Proof.
  intros Hirr Htrans. unfold _multi_reverse_lookup.
  destruct (multi_reverse_lookup_loop_sublist self max_count
              (sorted (λ a b, lt (str_lower a) (str_lower b)) values) None [])
    as (l & -> & Hl).
  simpl. eapply StronglySorted_sublist; [exact Hl|].
  apply (sorted_ge (λ a b, lt (str_lower a) (str_lower b))).
  - intros a. apply Hirr.
  - intros a b c. apply Htrans.
Qed.

End facts.

(** X22 on three dictionaries' worth of candidates. *)
Lemma multi_reverse_lookup_ordered_witness :
  let self := two_members [(K1, "cat"%string)]
                          [(K1, "dog"%string); (K2, "Dog"%string)] in
  StronglySorted (λ a b, lt (str_lower b) (str_lower a) = false)
    (_multi_reverse_lookup self ["dog"; "cat"; "Dog"]%string None).*1.
Proof.
  cbv zeta. apply multi_reverse_lookup_ordered.
  - apply string_ltb_irrefl.
  - apply string_ltb_trans.
Defined.

(** X16 on A = {K1: "dog"} before B = {K1: "cat", K2: "cat"}. *)
Lemma reverse_lookup_inverts_raw_lookup_witness :
  let self := two_members [(K1, "dog"%string)]
                          [(K1, "cat"%string); (K2, "cat"%string)] in
  K2 ∈ reverse_lookup self "cat"%string
  ↔ raw_lookup self K2 = Some "cat"%string.
Proof.
  apply (reverse_lookup_inverts_raw_lookup
           (two_members [(K1, "dog"%string)]
                        [(K1, "cat"%string); (K2, "cat"%string)])).
  apply two_members_exact.
Defined.

(** X17 on three members, the second of which, {K1: "cat"}, is disabled. *)
Lemma disabled_member_invisible_witness :
  let a : StenoDictionary.t (list string) string :=
    run [SetItem K2 "dog"%string] in
  let b := StenoDictionary.set_enabled false (run [SetItem K1 "cat"%string]) in
  let c := run [SetItem K1 "dog"%string] in
  let self := __init__ [a; b; c] in
  (∀ key, lookup self key = lookup (set_dicts self ([a] ++ [c])) key ∧
          raw_lookup self key = raw_lookup (set_dicts self ([a] ++ [c])) key) ∧
  (∀ value, reverse_lookup self value
            = reverse_lookup (set_dicts self ([a] ++ [c])) value).
Proof.
  cbv zeta.
  apply (disabled_member_invisible _ _
           (StenoDictionary.set_enabled false (run [SetItem K1 "cat"%string]))
           _); reflexivity.
Defined.

(** X19 on a read-only {K1: "dog"} before a writable {K2: "cat"}: the key
    K2 is set to "dog" in the second member. *)
Lemma set_then_raw_lookup_witness :
  let a : StenoDictionary.t (list string) string :=
    StenoDictionary.set_readonly true (run [SetItem K1 "dog"%string]) in
  let b := run [SetItem K2 "cat"%string] in
  ∃ self', set (__init__ [a; b]) K2 "dog"%string = Normal tt self' ∧
           raw_lookup self' K2 = Some "dog"%string ∧
           ∀ k, k ≠ K2 → raw_lookup self' k = raw_lookup (__init__ [a; b]) k.
Proof.
  cbv zeta.
  apply (set_then_raw_lookup _ K2 "dog"%string
           [StenoDictionary.set_readonly true (run [SetItem K1 "dog"%string])]
           (run [SetItem K2 "cat"%string]) []).
  - reflexivity.
  - repeat constructor.
  - reflexivity.
  - reflexivity.
  - repeat constructor. intros [_ [x Hx]]. vm_compute in Hx. discriminate.
Defined.

(** X21 on the one dictionary {K1: "cat"} and the candidates "dog" and
    "cat", with [is] read as equality. *)
Lemma multi_reverse_lookup_complete_witness :
  let self := __init__ [run [SetItem K1 "cat"%string]] in
  ("cat"%string, reverse_lookup self "cat"%string)
  ∈ _multi_reverse_lookup self ["dog"; "cat"]%string None.
Proof.
  cbv zeta. apply multi_reverse_lookup_complete.
  - intros a b. apply String.eqb_eq.
  - right. left.
  - intros Heq.
    assert (K1 ∈ (∅ : gset (list string))) as Hin
      by (rewrite <-Heq; by vm_compute).
    by apply not_elem_of_empty in Hin.
Defined.

End StenoDictionaryCollection_more_facts.

(** *** The Stroke class *)
Module Stroke_facts.
Import Py Py_spec Py_facts Py_more_facts steno steno_spec.

Section facts.
Context `{System} `{Layout} `{!SetIter str} `{!SetIterLaw str}.

Lemma numerals_loop_spec (self : gset str) (ks : list str) :
  map_Forall (λ _ n, NUMBERS !! n = None) NUMBERS →
  NoDup ks →
  (∀ k, k ∈ ks → k ∈ self ∧ is_Some (NUMBERS !! k)) →
  ∃ self', numerals_loop self ks = Value self' ∧
    ∀ x, x ∈ self' ↔
         (x ∈ self ∧ x ∉ ks) ∨ ∃ k, k ∈ ks ∧ NUMBERS !! k = Some x.
Proof.
  intros Hval. revert self.
  induction ks as [|k ks IH]; intros self Hnd Hks; simpl.
  - exists self. split; [done|]. intros x. split; [|intros [[? _]|(k & Hk & _)]].
    + intros Hx. left. split; [done|]. apply not_elem_of_nil.
    + done.
    + by apply elem_of_nil in Hk.
  - apply NoDup_cons in Hnd as [Hk Hnd].
    destruct (Hks k) as [Hin [n Hn]]; [left|].
    rewrite decide_True, Hn by done.
    destruct (IH ({[n]} ∪ self ∖ {[k]}) Hnd) as (self' & -> & Hself').
    { intros k' Hk'. destruct (Hks k') as [Hin' Hn']; [by right|].
      split; [|done]. apply elem_of_union. right.
      apply elem_of_difference. split; [done|].
      intros ->%elem_of_singleton. done. }
    exists self'. split; [done|]. intros x. rewrite Hself'.
    rewrite elem_of_union, elem_of_difference, !elem_of_singleton.
    rewrite not_elem_of_cons. split.
    + intros [[[->|[Hx Hxk]] Hxks]|(k' & Hk' & Hx)].
      * right. exists k. split; [left|done].
      * left. done.
      * right. exists k'. split; [by right|done].
    + intros [(Hx & Hxk & Hxks)|(k' & [->|Hk']%elem_of_cons & Hx)].
      * left. split; [|done]. right. done.
      * left. rewrite Hn in Hx. injection Hx as ->. split; [by left|].
        intros Hxks. destruct (Hks x) as [_ [? Hx]]; [by right|].
        by rewrite (Hval k x Hn) in Hx.
      * right. by exists k'.
Qed.

(** X23: under a layout in which the number key is not itself in the map
    of numbers and no number is, the number conversion of [Stroke] never
    raises, in whatever order the set is gone through. A chord with the
    number key and some key of the map comes out without the number key,
    with its keys of the map replaced by their numbers and its other keys
    kept; any other chord comes out as it is. *)
Theorem convert_numbers_spec (chord : gset str) :
  NUMBERS !! NUMBER_KEY = None →
  map_Forall (λ _ n, NUMBERS !! n = None) NUMBERS →
  ∃ self', convert_numbers chord = Value self' ∧
    (NUMBER_KEY ∈ chord → (∃ k, k ∈ chord ∧ is_Some (NUMBERS !! k)) →
     ∀ x, x ∈ self' ↔
          (x ∈ chord ∧ x ≠ NUMBER_KEY ∧ NUMBERS !! x = None) ∨
          ∃ k, k ∈ chord ∧ NUMBERS !! k = Some x) ∧
    ((NUMBER_KEY ∉ chord ∨ ∀ k, k ∈ chord → NUMBERS !! k = None) →
     self' = chord).
Proof.
  intros Hnk Hval. unfold convert_numbers.
  destruct (decide (NUMBER_KEY ∈ chord)) as [Hin|Hin].
  - set (numerals := filter (λ k, is_Some (NUMBERS !! k)) chord).
    destruct (decide (numerals ≠ ∅)) as [Hne|He].
    + destruct (numerals_loop_spec (chord ∖ {[NUMBER_KEY]})
                  (set_iter numerals) Hval) as (self' & -> & Hself').
      { rewrite set_iter_perm. apply NoDup_elements. }
      { intros k. rewrite set_iter_perm, elem_of_elements.
        unfold numerals. rewrite elem_of_filter. intros [Hk Hkc].
        split; [|done]. apply elem_of_difference. split; [done|].
        intros ->%elem_of_singleton. rewrite Hnk in Hk. by destruct Hk. }
      exists self'. split; [done|]. split.
      * intros _ _ x. rewrite Hself'.
        setoid_rewrite set_iter_perm. setoid_rewrite elem_of_elements.
        unfold numerals. setoid_rewrite elem_of_filter.
        rewrite elem_of_difference, elem_of_singleton. split.
        -- intros [[[Hx Hxk] Hn]|(k & [Hk Hkc] & Hx)].
           ++ left. split; [done|]. split; [done|].
              destruct (NUMBERS !! x) eqn:E; [|done]. destruct Hn. eauto.
           ++ right. eauto.
        -- intros [(Hx & Hxk & Hn)|(k & Hk & Hx)].
           ++ left. split; [done|]. rewrite Hn. by intros [[? ?] _].
           ++ right. exists k. rewrite Hx. eauto.
      * intros [?|Hnone]; [done|]. destruct Hne. apply set_eq. intros k.
        unfold numerals. rewrite elem_of_filter, elem_of_empty.
        split; [|done]. intros [[n Hn] Hk]. by rewrite (Hnone k Hk) in Hn.
    + exists chord. split; [done|]. split; [|done].
      intros _ (k & Hk & Hn). destruct He.
      intros Hem. assert (k ∈ numerals) as Hkn by by apply elem_of_filter.
      rewrite Hem in Hkn. by apply elem_of_empty in Hkn.
  - exists chord. split; [done|]. split; [done|done].
Qed.

Lemma sort_steno_keys_Value (l : list str) :
  (∀ k, k ∈ l → is_Some (KEY_ORDER !! k)) →
  ∃ l', sort_steno_keys l = Value l' ∧ l' ≡ₚ l ∧
        StronglySorted key_order_le l'.
Proof.
  intros Hl. unfold sort_steno_keys.
  assert (forallb (λ k, bool_decide (is_Some (KEY_ORDER !! k))) l = true)
    as ->.
  { apply forallb_forall. intros k Hk%list_elem_of_In.
    by apply bool_decide_eq_true, Hl. }
  eexists. split; [done|]. split; [apply sorted_perm|].
  eapply StronglySorted_mono; [|apply sorted_ge].
  - intros a b. unfold le_rel, key_order_le, lt, Z_Lt.
    rewrite Z.ltb_ge. done.
  - intros a. apply Z.ltb_irrefl.
  - intros a b c. unfold lt, Z_Lt. rewrite !Z.ltb_lt. lia.
Qed.

Lemma sort_steno_keys_KeyError (l : list str) (k : str) :
  k ∈ l → KEY_ORDER !! k = None → sort_steno_keys l = Exception KeyError.
Proof.
  intros Hk Hnone. unfold sort_steno_keys.
  destruct (forallb _ l) eqn:E; [|done].
  rewrite forallb_forall in E. apply list_elem_of_In, E in Hk.
  apply bool_decide_eq_true in Hk. rewrite Hnone in Hk. by destruct Hk.
Qed.

Lemma build_rtfcre_Value (self : gset str) (l : list str) :
  Forall (λ k, k ≠ []) l → ∃ text, build_rtfcre self l = Value text.
Proof.
  intros Hl. unfold build_rtfcre. case_decide; [by eexists|].
  rewrite bool_decide_false; [by eexists|].
  intros (k & Hk & ->)%Exists_exists.
  rewrite Forall_forall in Hl. by apply (Hl []).
Qed.

Lemma Stroke__init__inv (ks : list str) (st : Stroke) :
  Stroke__init__ ks = Value st →
  convert_numbers (list_to_set ks) = Value (keys st) ∧
  sort_steno_keys (set_iter (keys st)) = Value (steno_keys st) ∧
  build_rtfcre (keys st) (steno_keys st) = Value (rtfcre st) ∧
  is_correction st = bool_decide (rtfcre st = UNDO_STROKE_STENO).
Proof.
  unfold Stroke__init__.
  destruct (convert_numbers _) as [self|]; [|done].
  destruct (sort_steno_keys _) as [l|] eqn:El; [|done].
  destruct (build_rtfcre _ _) as [text|] eqn:Et; [|done].
  intros [= <-]. done.
Qed.

Lemma hyphens_app (a b : str) : hyphens (a ++ b) = (hyphens a + hyphens b)%nat.
Proof. unfold hyphens. by rewrite filter_app, length_app. Qed.

Lemma hyphens_concat_strip (l : list str) :
  Forall (λ k, hyphens (strip "-" k) = 0%nat) l →
  hyphens (concat (strip "-" <$> l)) = 0%nat.
Proof.
  induction 1 as [|k l Hk _ IH]; csimpl; [done|].
  rewrite hyphens_app. lia.
Qed.

(** X24: a chord whose keys, once the numbers are converted, are not empty
    and all have a place in the order of the layout makes a [Stroke]: the
    set is the converted chord, [steno_keys] lists the keys of the set,
    each once, with no key before one of a smaller place, in whatever
    order the set is gone through, and [is_correction] tells whether the
    text is the one of the undo stroke. *)
Theorem Stroke_init_steno_keys (ks : list str) (self : gset str) :
  convert_numbers (list_to_set ks) = Value self →
  (∀ k, k ∈ self → is_Some (KEY_ORDER !! k) ∧ k ≠ []) →
  ∃ st, Stroke__init__ ks = Value st ∧
        keys st = self ∧
        steno_keys st ≡ₚ elements self ∧
        StronglySorted key_order_le (steno_keys st) ∧
        (is_correction st = true ↔ rtfcre st = UNDO_STROKE_STENO).
Proof.
  intros Hconv Hself. unfold Stroke__init__. rewrite Hconv.
  destruct (sort_steno_keys_Value (set_iter self)) as (l & -> & Hperm & Hs).
  { intros k Hk. rewrite set_iter_perm, elem_of_elements in Hk.
    by apply Hself. }
  destruct (build_rtfcre_Value self l) as [text ->].
  { apply Forall_forall. intros k Hk.
    rewrite Hperm, set_iter_perm, elem_of_elements in Hk. by apply Hself. }
  eexists. split; [done|]. simpl. split; [done|].
  split; [by rewrite Hperm, set_iter_perm|]. split; [done|].
  by rewrite bool_decide_eq_true.
Qed.

(** X25: a key without a place in the order of the layout makes
    [Stroke] raise [KeyError], whatever the other keys are. *)
Theorem Stroke_init_KeyError (ks : list str) (self : gset str) (k : str) :
  convert_numbers (list_to_set ks) = Value self →
  k ∈ self → KEY_ORDER !! k = None →
  Stroke__init__ ks = Exception KeyError.
Proof.
  intros Hconv Hk Hnone. unfold Stroke__init__. rewrite Hconv.
  rewrite (sort_steno_keys_KeyError (set_iter self) k); [done| |done].
  by rewrite set_iter_perm, elem_of_elements.
Qed.

(** X26: when the keys of a stroke hold hyphens at their two ends only,
    its text holds at most one hyphen, and none when one of the keys is
    an implicit hyphen key. *)
Theorem Stroke_rtfcre_hyphens (ks : list str) (st : Stroke) :
  Stroke__init__ ks = Value st →
  (∀ k, k ∈ keys st → hyphens (strip "-" k) = 0%nat) →
  (hyphens (rtfcre st) ≤ 1)%nat ∧
  ((∃ k, k ∈ keys st ∧ k ∈ IMPLICIT_HYPHEN_KEYS) →
   hyphens (rtfcre st) = 0%nat).
Proof.
  intros (_ & Hsort & Htext & _)%Stroke__init__inv Hkeys.
  assert (steno_keys st ⊆ elements (keys st)) as Hsub.
  { unfold sort_steno_keys in Hsort.
    destruct (forallb _ _); [|done]. injection Hsort as <-.
    intros k. by rewrite sorted_perm, set_iter_perm. }
  assert (∀ l, l ⊆ steno_keys st →
            hyphens (concat (strip "-" <$> l)) = 0%nat) as Hzero.
  { intros l Hl. apply hyphens_concat_strip, Forall_forall.
    intros k Hk. by apply Hkeys, elem_of_elements, Hsub, Hl. }
  unfold build_rtfcre in Htext. case_decide as Himp.
  - injection Htext as <-. rewrite Hzero by done. split; [lia|done].
  - case_bool_decide; [done|]. injection Htext as <-. split.
    + case_decide.
      * simpl. rewrite hyphens_app. change (?a :: ?l) with ([a] ++ l).
        rewrite hyphens_app, !Hzero.
        -- done.
        -- intros k Hk%list_elem_of_filter. tauto.
        -- intros k Hk%list_elem_of_filter. tauto.
      * rewrite Hzero; [lia|]. intros k Hk%list_elem_of_filter. tauto.
    + intros (k & Hk & Hki).
      assert (k ∈ keys st ∩ IMPLICIT_HYPHEN_KEYS) as Hin
        by by apply elem_of_intersection.
      rewrite Himp in Hin. by apply elem_of_empty in Hin.
Qed.

End facts.

#[export] Instance sample_iter_law : @SetIterLaw str _ _ sample_iter.
Proof. intros s. reflexivity. Qed.

(** X23 on the chord of the number bar with S-, A- and -T. *)
Lemma convert_numbers_spec_witness :
  ∃ self',
    @convert_numbers english_stenotype sample_layout sample_iter
      (list_to_set (chars <$> ["#"; "S-"; "A-"; "-T"]%string)) = Value self'.
Proof.
  destruct (@convert_numbers_spec english_stenotype sample_layout
              sample_iter sample_iter_law
              (list_to_set (chars <$> ["#"; "S-"; "A-"; "-T"]%string)))
    as (self' & Hself' & _).
  - vm_compute. reflexivity.
  - apply (bool_decide_unpack _). vm_compute. exact I.
  - by exists self'.
Defined.

(** X24 on the same chord: the stroke of 1-, 5- and -9. *)
Lemma Stroke_init_steno_keys_witness :
  ∃ st,
    @Stroke__init__ english_stenotype sample_layout sample_iter
      (chars <$> ["#"; "-T"; "A-"; "S-"]%string) = Value st ∧
    steno_keys st = chars <$> ["1-"; "5-"; "-9"]%string.
Proof.
  destruct (@Stroke_init_steno_keys english_stenotype sample_layout
              sample_iter sample_iter_law
              (chars <$> ["#"; "-T"; "A-"; "S-"]%string)
              (list_to_set (chars <$> ["1-"; "5-"; "-9"]%string)))
    as (st & Hst & _).
  - vm_compute. reflexivity.
  - intros k Hk%elem_of_list_to_set.
    repeat (apply elem_of_cons in Hk as [->|Hk];
            [split; [vm_compute; eauto|discriminate]|]).
    by apply elem_of_nil in Hk.
  - exists st. split; [done|].
    vm_compute in Hst. injection Hst as <-. vm_compute. reflexivity.
Defined.

(** X25 on a chord with K-, which the sample layout gives no place. *)
Lemma Stroke_init_KeyError_witness :
  @Stroke__init__ english_stenotype sample_layout sample_iter
    (chars <$> ["S-"; "K-"]%string) = Exception KeyError.
Proof.
  apply (@Stroke_init_KeyError english_stenotype sample_layout
           sample_iter sample_iter_law
           (chars <$> ["S-"; "K-"]%string)
           (list_to_set (chars <$> ["S-"; "K-"]%string))
           (chars "K-")).
  - vm_compute. reflexivity.
  - apply elem_of_list_to_set. right. left.
  - vm_compute. reflexivity.
Defined.

(** X26 on the chord of S- and -T, whose text is S-T. *)
Lemma Stroke_rtfcre_hyphens_witness :
  (hyphens (chars "S-T") ≤ 1)%nat.
Proof.
  apply (@Stroke_rtfcre_hyphens english_stenotype sample_layout
           sample_iter sample_iter_law
           (chars <$> ["-T"; "S-"]%string)
           {| keys := list_to_set (chars <$> ["S-"; "-T"]%string);
              steno_keys := chars <$> ["S-"; "-T"]%string;
              rtfcre := chars "S-T";
              is_correction := false |}).
  - vm_compute. reflexivity.
  - cbn [keys]. intros k Hk%elem_of_list_to_set.
    repeat (apply elem_of_cons in Hk as [->|Hk]; [vm_compute; reflexivity|]).
    by apply elem_of_nil in Hk.
Defined.

End Stroke_facts.
